(** * dF/F calculation ([dff_calc/df_f_calculation.py]): model and properties

    The module computes dF/F traces with numpy and pandas.  The embedding
    follows the module function by function.  A float64 is an extended
    real ([NaN], signed infinities, exact reals): rounding, overflow and the
    sign of zero are outside the model.  An exception is [None].  The numpy
    and pandas primitives the module calls ([.T], broadcasting,
    [rolling(...).mean()], [rolling(...).min()], [ewm(...).mean()],
    [fillna]) are modelled by what they compute, each next to its use. *)

From Stdlib Require Import Reals Lra Lia ZArith.
From stdpp Require Import base option list gmap.

(** ** Float values *)

Inductive val :=
| NaN
| Inf (neg : bool)
| Num (r : R).

Definition Rltb (x y : R) : bool := if Rlt_dec x y then true else false.
Definition Reqb (x y : R) : bool := if Req_dec_T x y then true else false.

Definition isnan (v : val) : bool :=
  match v with NaN => true | _ => false end.

Definition vneg (a : val) : val :=
  match a with
  | NaN => NaN
  | Inf s => Inf (negb s)
  | Num x => Num (- x)
  end.

Definition vadd (a b : val) : val :=
  match a, b with
  | NaN, _ | _, NaN => NaN
  | Inf s, Inf s' => if Bool.eqb s s' then Inf s else NaN
  | Inf s, Num _ | Num _, Inf s => Inf s
  | Num x, Num y => Num (x + y)
  end.

Definition vsub (a b : val) : val := vadd a (vneg b).

(** Division as numpy does it on float64: [x / 0] is an infinity with the
    sign of [x] and [0 / 0] is NaN, no exception.  (The only zero divisors
    this program can produce are sums that cancel exactly, which are [+0].) *)
Definition vdiv (a b : val) : val :=
  match a, b with
  | NaN, _ | _, NaN => NaN
  | Inf _, Inf _ => NaN
  | Inf s, Num y => Inf (xorb s (Rltb y 0))
  | Num _, Inf _ => Num 0
  | Num x, Num y =>
      if Reqb y 0 then (if Reqb x 0 then NaN else Inf (Rltb x 0))
      else Num (x / y)
  end.

(** [np.finfo(float).eps] *)
Definition float_eps : R := (/ 2 ^ 52)%R.

(** Python's [int(x)] on a float: truncation toward zero. *)
Definition py_int (x : R) : Z :=
  if Rlt_dec x 0 then (- Int_part (- x))%Z else Int_part x.

(** ** numpy arrays of one or two dimensions *)

Inductive ndarray :=
| Arr1 (xs : list val)
| Arr2 (nrow ncol : nat) (rows : list (list val)).

Definition wf_mat (r c : nat) (m : list (list val)) : Prop :=
  length m = r ∧ Forall (λ row, length row = c) m.

Definition wf (a : ndarray) : Prop :=
  match a with
  | Arr1 _ => True
  | Arr2 r c m => wf_mat r c m
  end.

Definition ndim (a : ndarray) : nat :=
  match a with Arr1 _ => 1 | Arr2 _ _ _ => 2 end.

Definition shape (a : ndarray) : list nat :=
  match a with
  | Arr1 xs => [length xs]
  | Arr2 r c _ => [r; c]
  end.

Definition get (m : list (list val)) (i j : nat) : val :=
  default NaN (m !! i ≫= (.!! j)).

Definition tabulate (r c : nat) (f : nat → nat → val) : list (list val) :=
  (λ i, f i <$> seq 0 c) <$> seq 0 r.

(** [a.T]: a 1-D array is its own transpose. *)
Definition np_T (a : ndarray) : ndarray :=
  match a with
  | Arr1 xs => Arr1 xs
  | Arr2 r c m => Arr2 c r (tabulate c r (λ i j, get m j i))
  end.

Definition np_map (f : val → val) (a : ndarray) : ndarray :=
  match a with
  | Arr1 xs => Arr1 (fmap (M:=list) f xs)
  | Arr2 r c m => Arr2 r c (fmap (M:=list) (fmap (M:=list) f) m)
  end.

(** [-a] *)
Definition np_neg : ndarray → ndarray := np_map vneg.

(** [a + s] for a Python float [s] *)
Definition np_add_scalar (a : ndarray) (s : R) : ndarray :=
  np_map (λ x, vadd x (Num s)) a.

(** Broadcasting of two arrays: a 1-D array of length n counts as 1 x n, an
    axis of length 1 is stretched, any other mismatch raises. *)
Definition as2d (a : ndarray) : nat * nat * list (list val) :=
  match a with
  | Arr1 xs => (1, length xs, [xs])
  | Arr2 r c m => (r, c, m)
  end.

Definition bdim (n1 n2 : nat) : option nat :=
  if n1 =? n2 then Some n1
  else if n1 =? 1 then Some n2
  else if n2 =? 1 then Some n1
  else None.

Definition bidx (n i : nat) : nat := if n =? 1 then 0 else i.

Definition np_binop (op : val → val → val) (a b : ndarray) : option ndarray :=
  let '(r1, c1, m1) := as2d a in
  let '(r2, c2, m2) := as2d b in
  r ← bdim r1 r2;
  c ← bdim c1 c2;
  let m := tabulate r c (λ i j, op (get m1 (bidx r1 i) (bidx c1 j))
                                   (get m2 (bidx r2 i) (bidx c2 j))) in
  Some (match a, b with
        | Arr1 _, Arr1 _ => Arr1 (default [] (m !! 0))
        | _, _ => Arr2 r c m
        end).

Definition np_sub : ndarray → ndarray → option ndarray := np_binop vsub.
Definition np_div : ndarray → ndarray → option ndarray := np_binop vdiv.

Definition np_ravel (a : ndarray) : ndarray :=
  match a with
  | Arr1 xs => Arr1 xs
  | Arr2 _ _ m => Arr1 (concat m)
  end.

Definition np_atleast_2d (a : ndarray) : ndarray :=
  match a with
  | Arr1 xs => Arr2 1 (length xs) [xs]
  | Arr2 r c m => Arr2 r c m
  end.

(** ** pandas data frames: an index length and the list of columns *)

Record DataFrame := mkDataFrame {
  nindex : nat;
  columns : list (list val)
}.

(** [pd.DataFrame(a)]: a 1-D array becomes one column. *)
Definition pd_DataFrame (a : ndarray) : DataFrame :=
  match a with
  | Arr1 xs => mkDataFrame (length xs) [xs]
  | Arr2 r c m => mkDataFrame r (tabulate c r (λ j i, get m i j))
  end.

Definition to_numpy (df : DataFrame) : ndarray :=
  let c := length (columns df) in
  Arr2 (nindex df) c (tabulate (nindex df) c (λ i j, get (columns df) j i)).

(** A column-wise operation that keeps the index. *)
Definition df_apply (f : list val → list val) (df : DataFrame) : DataFrame :=
  mkDataFrame (nindex df) (f <$> columns df).

Definition df_add_scalar (df : DataFrame) (s : R) : DataFrame :=
  df_apply (fmap (M:=list) (λ x, vadd x (Num s))) df.

(** [df.fillna(0)]: only NaN is filled, an infinity stays. *)
Definition fill0 (v : val) : val := if isnan v then Num 0 else v.
Definition fillna0 : DataFrame → DataFrame := df_apply (fmap (M:=list) fill0).

(** *** Rolling windows

    The window of length [n] at position [t] is trailing: positions
    [t-n+1 .. t] that exist ([center] is left at its default, False).
    pandas turns infinities into NaN before any window computation, and an
    observation is an entry that is not NaN then. *)

Definition finite (v : val) : option R :=
  match v with Num r => Some r | _ => None end.

Definition window (n t : nat) (xs : list val) : list val :=
  drop (S t - n) (take (S t) xs).

Definition observations (w : list val) : list R := omap finite w.

Definition Rsum (l : list R) : R := foldr Rplus 0%R l.

Record Rolling := mkRolling {
  r_obj : DataFrame;
  r_window : nat;
  r_min_periods : option nat
}.

(** [df.rolling(window=w, min_periods=mp)] (with or without [win_type]):
    ValueError for a negative window, a negative [min_periods] or
    [min_periods > window].  A window is any integer here: one too large
    for the machine to index or to hold (pandas and scipy then raise
    OverflowError or MemoryError) is accepted by this definition, so a
    result of [Some] stands for the code's result only for windows the
    machine can handle. *)
Definition rolling (df : DataFrame) (w : Z) (mp : option Z) : option Rolling :=
  if (w <? 0)%Z then None
  else match mp with
       | None => Some (mkRolling df (Z.to_nat w) None)
       | Some m =>
           if (m <? 0)%Z || (w <? m)%Z then None
           else Some (mkRolling df (Z.to_nat w) (Some (Z.to_nat m)))
       end.

(** Weighted mean with boxcar (all ones) weights: the sum of the
    observations over their count, NaN below [max minp 1] observations. *)
Definition boxcar_mean_at (minp : nat) (w : list val) : val :=
  let obs := observations w in
  if length obs <? Nat.max minp 1 then NaN
  else Num (Rsum obs / INR (length obs)).

(** [.mean()] of a [win_type="boxcar"] window; [min_periods] defaults to the
    window length. *)
Definition rolling_boxcar_mean_col (n minp : nat) (xs : list val) : list val :=
  (λ t, boxcar_mean_at minp (window n t xs)) <$> seq 0 (length xs).

Definition rolling_boxcar_mean (r : Rolling) : DataFrame :=
  let n := r_window r in
  df_apply (rolling_boxcar_mean_col n (default n (r_min_periods r))) (r_obj r).

Definition min_at (minp : nat) (w : list val) : val :=
  match observations w with
  | [] => NaN
  | x :: rest =>
      if S (length rest) <? minp then NaN else Num (foldl Rmin x rest)
  end.

Definition rolling_min_col (n minp : nat) (xs : list val) : list val :=
  (λ t, min_at minp (window n t xs)) <$> seq 0 (length xs).

Definition rolling_min (r : Rolling) : DataFrame :=
  let n := r_window r in
  df_apply (rolling_min_col n (default n (r_min_periods r))) (r_obj r).

(** *** Exponentially weighted windows

    [df.ewm(halflife=h, min_periods=mp)]: ValueError unless [0 < h]; the
    centre of mass is derived from the half-life, and at least one
    observation is always required. *)

Record ExponentialMovingWindow := mkEwm {
  e_obj : DataFrame;
  e_com : R;
  e_min_periods : nat
}.

Definition get_center_of_mass (halflife : R) : option R :=
  if Rle_dec halflife 0 then None
  else
    let decay := (1 - exp (ln (1 / 2) / halflife))%R in
    Some (1 / decay - 1)%R.

Definition ewm (df : DataFrame) (halflife : R) (min_periods : Z)
  : option ExponentialMovingWindow :=
  com ← get_center_of_mass halflife;
  Some (mkEwm df com (Nat.max (Z.to_nat min_periods) 1)).

(** The running state of the [.mean()] loop ([adjust=True],
    [ignore_na=False]): the current average (NaN until the first
    observation), the number of observations seen, and the total weight of
    the past. *)
Record ewm_state := mkEwmState {
  weighted : option R;
  nobs : nat;
  old_wt : R
}.

Definition ewm_out (minp : nat) (st : ewm_state) : val :=
  if nobs st <? minp then NaN
  else match weighted st with Some w => Num w | None => NaN end.

Definition ewm_init (v0 : option R) : ewm_state :=
  mkEwmState v0 (match v0 with Some _ => 1 | None => 0 end) 1.

Definition ewm_step (old_wt_factor new_wt : R) (st : ewm_state)
    (cur : option R) : ewm_state :=
  let nobs' := match cur with Some _ => S (nobs st) | None => nobs st end in
  match weighted st with
  | Some w =>
      let old_wt' := (old_wt st * old_wt_factor)%R in
      match cur with
      | Some c =>
          let w' :=
            if Req_dec_T w c then w
            else ((old_wt' * w + new_wt * c) / (old_wt' + new_wt))%R in
          mkEwmState (Some w') nobs' (old_wt' + new_wt)
      | None => mkEwmState (Some w) nobs' old_wt'
      end
  | None => mkEwmState cur nobs' (old_wt st)
  end.

Fixpoint ewm_loop (old_wt_factor new_wt : R) (minp : nat) (st : ewm_state)
    (vals : list (option R)) : list val :=
  match vals with
  | [] => []
  | cur :: rest =>
      let st' := ewm_step old_wt_factor new_wt st cur in
      ewm_out minp st' :: ewm_loop old_wt_factor new_wt minp st' rest
  end.

Definition ewm_mean_col (com : R) (minp : nat) (xs : list val) : list val :=
  let alpha := (1 / (1 + com))%R in
  let old_wt_factor := (1 - alpha)%R in
  let new_wt := 1%R in
  match finite <$> xs with
  | [] => []
  | v0 :: rest =>
      let st := ewm_init v0 in
      ewm_out minp st :: ewm_loop old_wt_factor new_wt minp st rest
  end.

Definition ewm_mean (e : ExponentialMovingWindow) : DataFrame :=
  df_apply (ewm_mean_col (e_com e) (e_min_periods e)) (e_obj e).

(** ** The module's functions *)

Definition _apply_units_and_corrections (fps tau_0 tau_1 tau_2 : R)
  : R * Z * Z * Z :=
  let tau_0 := (fps * tau_0)%R in
  let tau_1 := py_int (fps * tau_1) in
  let tau_2 := py_int (fps * tau_2) in
  let min_per := Z.max 1 (py_int (fps / 10)) in
  (tau_0, tau_1, tau_2, min_per).

Definition _calc_f0 (data : ndarray) (tau_1 tau_2 min_per : Z)
  : option DataFrame :=
  let data := pd_DataFrame (np_T data) in
  r1 ← rolling data tau_1 None;
  r2 ← rolling (rolling_boxcar_mean r1) tau_2 (Some min_per);
  Some (df_add_scalar (rolling_min r2) float_eps).

(** The array the function calls [raw_calc]. *)
Definition raw_calc (f0 : ndarray) (data : ndarray)
    (low_background_flag : bool) (low_background_offset_value : R)
  : option ndarray :=
  if low_background_flag then
    num ← np_sub (np_add_scalar (np_T data) (2 * low_background_offset_value))
                 f0;
    np_div num (np_add_scalar f0 low_background_offset_value)
  else
    num ← np_sub (np_T data) f0;
    np_div num f0.

Definition _calc_dff_unfiltered (f0 : DataFrame) (data : ndarray)
    (low_background_flag : bool) (low_background_offset_value : R)
  : option DataFrame :=
  let f0 := to_numpy f0 in
  raw ← raw_calc f0 data low_background_flag low_background_offset_value;
  Some (fillna0 (pd_DataFrame raw)).

Definition _filter_dff (unfiltered_dff : DataFrame) (tau_0 : R) (min_per : Z)
  : option DataFrame :=
  e ← ewm unfiltered_dff tau_0 min_per;
  Some (fillna0 (ewm_mean e)).

Definition low_background_offset_value : R := (5 / 100)%R.

Definition dff_calc (data : ndarray) (fps tau_0 tau_1 tau_2 : R)
    (invert low_background_flag : bool) : option ndarray :=
  let '(tau_0, tau_1, tau_2, min_per) :=
    _apply_units_and_corrections fps tau_0 tau_1 tau_2 in
  let data := if invert then np_neg data else data in
  f0 ← _calc_f0 data tau_1 tau_2 min_per;
  unfiltered_dff ← _calc_dff_unfiltered f0 data low_background_flag
                     low_background_offset_value;
  dff ← _filter_dff unfiltered_dff tau_0 min_per;
  Some (if ndim data =? 1 then np_atleast_2d (np_ravel (to_numpy dff))
        else np_T (to_numpy dff)).

(** ** The same functions over a store of array buffers

    To speak about what a call does to the caller's array, arrays live in a
    store.  An ndarray object is a view of a buffer ([.T] gives a view of the
    same buffer), a DataFrame built from an array keeps that array as its
    block without copying, and [to_numpy] hands the block back.  A
    computation may read buffers, allocate fresh ones and write into existing
    ones; it returns the new store also when it raises. *)

Abbreviation store := (gmap nat ndarray).

Record aref := mkRef { base : nat; transposed : bool }.
Record dref := mkDref { block : aref }.

Definition M (A : Type) : Type := store → store * option A.

Definition mret {A} (a : A) : M A := λ h, (h, Some a).

Definition mbind {A B} (m : M A) (k : A → M B) : M B :=
  λ h, match m h with
       | (h', Some a) => k a h'
       | (h', None) => (h', None)
       end.

Declare Scope m_scope.
Delimit Scope m_scope with M.
Notation "x <- m ;; k" := (mbind m (λ x, k))
  (at level 100, m at next level, right associativity) : m_scope.

Definition lift {A} (o : option A) : M A := λ h, (h, o).

Definition alloc (a : ndarray) : M aref :=
  λ h, let l := fresh (dom h) in (<[l := a]> h, Some (mkRef l false)).

Definition view (r : aref) (a : ndarray) : ndarray :=
  if transposed r then np_T a else a.

Definition load (r : aref) : M ndarray :=
  λ h, (h, view r <$> h !! base r).

(** An in-place write (as [a[...] = v] or [fillna(inplace=True)] would do);
    the module never uses it. *)
Definition write (r : aref) (a : ndarray) : M unit :=
  λ h, (<[base r := view r a]> h, Some tt).

Definition load_frame (d : dref) : M DataFrame :=
  λ h, match load (block d) h with
       | (h', o) => (h', pd_DataFrame <$> o)
       end.

Definition alloc_frame (df : DataFrame) : M dref :=
  λ h, match alloc (to_numpy df) h with
       | (h', o) => (h', mkDref <$> o)
       end.

Local Open Scope m_scope.

Definition m_neg (a : aref) : M aref :=
  v <- load a;; alloc (np_neg v).

Definition m_T (a : aref) : M aref :=
  mret (mkRef (base a) (negb (transposed a))).

Definition m_DataFrame (a : aref) : M dref := mret (mkDref a).

Definition m_to_numpy (d : dref) : M aref := mret (block d).

Definition m_calc_f0 (data : aref) (tau_1 tau_2 min_per : Z) : M dref :=
  dataT <- m_T data;;
  data <- m_DataFrame dataT;;
  df <- load_frame data;;
  r1 <- lift (rolling df tau_1 None);;
  mean <- alloc_frame (rolling_boxcar_mean r1);;
  df <- load_frame mean;;
  r2 <- lift (rolling df tau_2 (Some min_per));;
  mn <- alloc_frame (rolling_min r2);;
  df <- load_frame mn;;
  alloc_frame (df_add_scalar df float_eps).

Definition m_binop (op : ndarray → ndarray → option ndarray) (a b : aref)
  : M aref :=
  x <- load a;; y <- load b;; r <- lift (op x y);; alloc r.

Definition m_add_scalar (a : aref) (s : R) : M aref :=
  x <- load a;; alloc (np_add_scalar x s).

Definition m_calc_dff_unfiltered (f0 : dref) (data : aref)
    (low_background_flag : bool) (low_background_offset_value : R) : M dref :=
  f0 <- m_to_numpy f0;;
  raw <- (if low_background_flag then
            dataT <- m_T data;;
            shifted <- m_add_scalar dataT (2 * low_background_offset_value);;
            num <- m_binop np_sub shifted f0;;
            den <- m_add_scalar f0 low_background_offset_value;;
            m_binop np_div num den
          else
            dataT <- m_T data;;
            num <- m_binop np_sub dataT f0;;
            m_binop np_div num f0);;
  d <- m_DataFrame raw;;
  df <- load_frame d;;
  alloc_frame (fillna0 df).

Definition m_filter_dff (unfiltered_dff : dref) (tau_0 : R) (min_per : Z)
  : M dref :=
  df <- load_frame unfiltered_dff;;
  e <- lift (ewm df tau_0 min_per);;
  mean <- alloc_frame (ewm_mean e);;
  df <- load_frame mean;;
  alloc_frame (fillna0 df).

Definition m_dff_calc (data : aref) (fps tau_0 tau_1 tau_2 : R)
    (invert low_background_flag : bool) : M aref :=
  let '(tau_0, tau_1, tau_2, min_per) :=
    _apply_units_and_corrections fps tau_0 tau_1 tau_2 in
  data <- (if invert then m_neg data else mret data);;
  f0 <- m_calc_f0 data tau_1 tau_2 min_per;;
  unfiltered_dff <- m_calc_dff_unfiltered f0 data low_background_flag
                      low_background_offset_value;;
  dff <- m_filter_dff unfiltered_dff tau_0 min_per;;
  v <- load data;;
  if ndim v =? 1 then
    a <- m_to_numpy dff;;
    x <- load a;;
    flat <- alloc (np_ravel x);;
    y <- load flat;;
    alloc (np_atleast_2d y)
  else
    a <- m_to_numpy dff;;
    m_T a.

Local Close Scope m_scope.

(** ** Definitions used to state the properties *)

(** What one channel (one row of the input, one column of the frames) goes
    through. *)
Definition f0_col (n1 n2 minp : nat) (xs : list val) : list val :=
  (λ x, vadd x (Num float_eps)) <$>
    rolling_min_col n2 minp (rolling_boxcar_mean_col n1 n1 xs).

Definition ratio (low_background_flag : bool) (offset : R) (x f : val) : val :=
  if low_background_flag
  then vdiv (vsub (vadd x (Num (2 * offset))) f) (vadd f (Num offset))
  else vdiv (vsub x f) f.

Definition unfiltered_col (n1 n2 minp : nat) (lbf : bool) (xs : list val)
  : list val :=
  fill0 <$> zip_with (ratio lbf low_background_offset_value) xs
                     (f0_col n1 n2 minp xs).

Definition filter_col (com : R) (minp : nat) (xs : list val) : list val :=
  fill0 <$> ewm_mean_col com (Nat.max minp 1) xs.

Definition channel_dff (n1 n2 minp : nat) (com : R) (lbf : bool)
    (xs : list val) : list val :=
  filter_col com minp (unfiltered_col n1 n2 minp lbf xs).

(** The centre of mass pandas derives from a half-life. *)
Definition com_of_halflife (h : R) : R :=
  (1 / (1 - exp (ln (1 / 2) / h)) - 1)%R.

(** One channel under the parameters as the caller gives them. *)
Definition dff_row (fps tau_0 tau_1 tau_2 : R) (lbf : bool)
  : list val → list val :=
  let '(t0, t1, t2, mp) := _apply_units_and_corrections fps tau_0 tau_1 tau_2 in
  channel_dff (Z.to_nat t1) (Z.to_nat t2) (Z.to_nat mp) (com_of_halflife t0)
    lbf.

(** The number of leading timepoints at which the rolling operations have
    not yet seen enough samples for a baseline: the boxcar window needs
    [tau_1] samples and the minimum then needs [min_per] boxcar means. *)
Definition warmup_samples (fps tau_0 tau_1 tau_2 : R) : nat :=
  let '(_, t1, _, mp) := _apply_units_and_corrections fps tau_0 tau_1 tau_2 in
  (Z.to_nat t1 - 1) + (Z.to_nat mp - 1).

(** The parameters with which no pandas call raises. *)
Definition params_ok (fps tau_0 tau_1 tau_2 : R) : Prop :=
  let '(t0, t1, t2, mp) := _apply_units_and_corrections fps tau_0 tau_1 tau_2 in
  (0 < t0)%R ∧ (0 ≤ t1)%Z ∧ (mp ≤ t2)%Z.

(** The spec's first stage, in its words: a centered boxcar average of
    window length [n], undefined where the window holds fewer than [n]
    samples.  The window centered on [t] reaches [(n-1)/2] positions ahead
    of [t] (for an odd length it is symmetric). *)
Definition centered_boxcar_mean_col (n : nat) (xs : list val) : list val :=
  (λ t, boxcar_mean_at n (window n (t + (n - 1) / 2) xs)) <$>
    seq 0 (length xs).

(** The spec's baseline estimator: the first stage centered, the minimum
    and the epsilon as the code has them. *)
Definition calc_f0_centered (data : ndarray) (tau_1 tau_2 min_per : Z)
  : option DataFrame :=
  let data := pd_DataFrame (np_T data) in
  r1 ← rolling data tau_1 None;
  r2 ← rolling (df_apply (centered_boxcar_mean_col (r_window r1)) (r_obj r1))
         tau_2 (Some min_per);
  Some (df_add_scalar (rolling_min r2) float_eps).

(** The spec's floor. *)
Definition floor (x : R) : Z := Int_part x.

(** The spec's parameter normalizer, in its words. *)
Definition normalizer_spec (fps tau_0 tau_1 tau_2 : R) : R * Z * Z * Z :=
  ((fps * tau_0)%R, floor (fps * tau_1), floor (fps * tau_2),
   Z.max 1 (floor (fps / 10))).

(** The weight the spec gives a sample at a lag: halved every [halflife]
    samples. *)
Definition halving_weight (halflife lag : R) : R :=
  Rpower (1 / 2) (lag / halflife).

(** The exponentially weighted average of the samples there are up to a
    timepoint, listed most recent first: the sample at lag [k] weighs
    [halving_weight halflife k], and the sum is divided by the total weight
    of these samples. *)
Definition ew_num (halflife : R) (recent : list R) : R :=
  Rsum (imap (λ k x, halving_weight halflife (INR k) * x)%R recent).

Definition ew_den (halflife : R) (recent : list R) : R :=
  Rsum (imap (λ k _, halving_weight halflife (INR k)) recent).

Definition ew_average (halflife : R) (recent : list R) : R :=
  (ew_num halflife recent / ew_den halflife recent)%R.

(** Entries of a row and of a matrix. *)
Definition row (i : nat) (a : ndarray) : option (list val) :=
  match a with
  | Arr1 _ => None
  | Arr2 _ _ m => m !! i
  end.

(** The channels of an input: its rows, or the 1-D input itself. *)
Definition channels (a : ndarray) : list (list val) :=
  match a with
  | Arr1 xs => [xs]
  | Arr2 _ _ m => m
  end.

(** Every real entry of the input is non-negative. *)
Definition nonneg (a : ndarray) : Prop :=
  ∀ xs r, xs ∈ channels a → Num r ∈ xs → (0 <= r)%R.

(** A computation that leaves every buffer of the store it starts from as
    it is (it may add buffers). *)
Definition preserving {A} (m : M A) : Prop := ∀ h : store, h ⊆ (m h).1.

(** A frame whose columns all have the length of the index. *)
Definition wf_frame (df : DataFrame) : Prop :=
  Forall (λ col, length col = nindex df) (columns df).

(** The view [r] shows the array [a] in the store [h]. *)
Definition points_to (h : store) (r : aref) (a : ndarray) : Prop :=
  ∃ b, h !! base r = Some b ∧ wf b ∧ view r b = a.

(** Running [m] from [h] keeps the buffers of [h] and ends, with a result or
    an exception, in a store where [Q] holds. *)
Definition wp {A} (m : M A) (h : store) (Q : option A → store → Prop) : Prop :=
  h ⊆ (m h).1 ∧ Q (m h).2 (m h).1.

(** The result of the store version agrees with the result [o] of the pure
    version: both raise, or the returned view shows the returned array. *)
Definition agrees (o : option ndarray) (r : option aref) (h : store) : Prop :=
  match r, o with
  | Some r, Some a => points_to h r a
  | None, None => True
  | _, _ => False
  end.

Definition agrees_frame (o : option DataFrame) (d : option dref) (h : store)
  : Prop :=
  match d, o with
  | Some d, Some df => points_to h (block d) (to_numpy df) ∧ wf_frame df
  | None, None => True
  | _, _ => False
  end.

(** The recording cut to its first [k] timepoints, [a[:, :k]]. *)
Definition np_first_cols (k : nat) (a : ndarray) : ndarray :=
  match a with
  | Arr1 xs => Arr1 (take k xs)
  | Arr2 r c m => Arr2 r (Nat.min k c) (take k <$> m)
  end.

(** Two matrices over the same timepoints, one on top of the other
    ([np.vstack]). *)
Definition np_vstack (a b : ndarray) : ndarray :=
  match a, b with
  | Arr2 r1 c m1, Arr2 r2 _ m2 => Arr2 (r1 + r2) c (m1 ++ m2)
  | _, _ => a
  end.


(** * Properties *)

(** ** Matrices by index *)

Lemma length_tabulate r c f : length (tabulate r c f) = r.
Proof. unfold tabulate. by rewrite length_fmap, length_seq. Qed.

Lemma lookup_tabulate r c f i :
  i < r → tabulate r c f !! i = Some (f i <$> seq 0 c).
Proof.
  intros Hi. unfold tabulate.
  by rewrite list_lookup_fmap, lookup_seq_lt.
Qed.

Lemma get_tabulate r c f i j :
  i < r → j < c → get (tabulate r c f) i j = f i j.
Proof.
  intros Hi Hj. unfold get. rewrite lookup_tabulate by done. simpl.
  by rewrite list_lookup_fmap, lookup_seq_lt.
Qed.

Lemma tabulate_ext r c f g :
  (∀ i j, i < r → j < c → f i j = g i j) → tabulate r c f = tabulate r c g.
Proof.
  intros H. unfold tabulate. apply list_fmap_ext.
  intros k i Hk. apply lookup_seq in Hk as [-> Hk]. simpl.
  apply list_fmap_ext. intros k' j Hj. apply lookup_seq in Hj as [-> Hj].
  simpl. by apply H.
Qed.

Lemma wf_tabulate r c f : wf_mat r c (tabulate r c f).
Proof.
  split; [apply length_tabulate|].
  unfold tabulate. apply Forall_fmap, Forall_forall. intros i _. simpl.
  by rewrite length_fmap, length_seq.
Qed.

Lemma tabulate_get r c m : wf_mat r c m → tabulate r c (get m) = m.
Proof.
  intros [Hr Hc]. apply list_eq. intros i.
  destruct (decide (i < r)) as [Hi|Hi].
  - rewrite lookup_tabulate by done.
    destruct (lookup_lt_is_Some_2 m i) as [xs Hx]; [lia|]. rewrite Hx.
    f_equal. apply list_eq. intros j. rewrite list_lookup_fmap.
    assert (length xs = c) as Hl.
    { eapply (proj1 (Forall_lookup _ _) Hc); eauto. }
    destruct (decide (j < c)) as [Hj|Hj].
    + rewrite lookup_seq_lt by done. simpl. unfold get. rewrite Hx. simpl.
      destruct (lookup_lt_is_Some_2 xs j) as [x Hxj]; [lia|]. by rewrite Hxj.
    + rewrite lookup_seq_ge by lia. simpl. symmetry.
      apply lookup_ge_None. lia.
  - rewrite (proj2 (lookup_ge_None _ _)) by (rewrite length_tabulate; lia).
    symmetry. apply lookup_ge_None. lia.
Qed.

Lemma transpose_transpose r c m :
  wf_mat r c m →
  tabulate r c (λ i j, get (tabulate c r (λ j' i', get m i' j')) j i) = m.
Proof.
  intros Hm. etrans; [|apply (tabulate_get r c m Hm)].
  apply tabulate_ext. intros i j Hi Hj. by rewrite get_tabulate.
Qed.

Lemma bidx_lt n i : i < n → bidx n i = i.
Proof. unfold bidx. intros H. destruct (Nat.eqb_spec n 1); lia. Qed.

Lemma bdim_same n : bdim n n = Some n.
Proof. unfold bdim. by rewrite Nat.eqb_refl. Qed.

Lemma get_row m i j xs : m !! i = Some xs → get m i j = default NaN (xs !! j).
Proof. intros H. unfold get. by rewrite H. Qed.

Lemma get_fmap (f : val → val) r c m i j :
  wf_mat r c m → i < r → j < c →
  get (fmap (M:=list) (fmap (M:=list) f) m) i j = f (get m i j).
Proof.
  intros [Hr Hc] Hi Hj. unfold get.
  destruct (lookup_lt_is_Some_2 m i) as [xs Hx]; [lia|].
  rewrite list_lookup_fmap, Hx. simpl. rewrite list_lookup_fmap.
  assert (length xs = c) as Hl.
  { eapply (proj1 (Forall_lookup _ _) Hc); eauto. }
  destruct (lookup_lt_is_Some_2 xs j) as [x Hxj]; [lia|]. by rewrite Hxj.
Qed.

Lemma wf_mat_fmap (h : list val → list val) r c m :
  wf_mat r c m → (∀ xs, length (h xs) = length xs) → wf_mat r c (h <$> m).
Proof.
  intros [Hr Hc] Hh. split; [by rewrite length_fmap|].
  apply Forall_fmap. eapply Forall_impl; [exact Hc|].
  intros xs Hx. simpl. by rewrite Hh.
Qed.

Lemma wf_mat_lookup r c m i xs : wf_mat r c m → m !! i = Some xs → length xs = c.
Proof. intros [_ Hc] Hx. eapply (proj1 (Forall_lookup _ _) Hc); eauto. Qed.

(** ** Column operations keep the length *)

Lemma length_rolling_boxcar_mean_col n minp xs :
  length (rolling_boxcar_mean_col n minp xs) = length xs.
Proof. unfold rolling_boxcar_mean_col. by rewrite length_fmap, length_seq. Qed.

Lemma length_rolling_min_col n minp xs :
  length (rolling_min_col n minp xs) = length xs.
Proof. unfold rolling_min_col. by rewrite length_fmap, length_seq. Qed.

Lemma length_f0_col n1 n2 minp xs : length (f0_col n1 n2 minp xs) = length xs.
Proof.
  unfold f0_col.
  by rewrite length_fmap, length_rolling_min_col,
    length_rolling_boxcar_mean_col.
Qed.

Lemma length_ewm_loop q w minp st vals :
  length (ewm_loop q w minp st vals) = length vals.
Proof. revert st. induction vals as [|v vals IH]; intros st; simpl; auto. Qed.

Lemma length_ewm_mean_col com minp xs :
  length (ewm_mean_col com minp xs) = length xs.
Proof.
  unfold ewm_mean_col. destruct xs as [|x xs]; simpl; [done|].
  by rewrite length_ewm_loop, length_fmap.
Qed.

Lemma length_unfiltered_col n1 n2 minp lbf xs :
  length (unfiltered_col n1 n2 minp lbf xs) = length xs.
Proof.
  unfold unfiltered_col.
  rewrite length_fmap, length_zip_with, length_f0_col. lia.
Qed.

Lemma length_filter_col com minp xs : length (filter_col com minp xs) = length xs.
Proof. unfold filter_col. by rewrite length_fmap, length_ewm_mean_col. Qed.

Lemma length_channel_dff n1 n2 minp com lbf xs :
  length (channel_dff n1 n2 minp com lbf xs) = length xs.
Proof.
  unfold channel_dff. by rewrite length_filter_col, length_unfiltered_col.
Qed.

(** ** The stages on a well-formed 2-D input *)

Lemma tabulate_zip_with (F : val → val → val) r c a b :
  wf_mat r c a → wf_mat r c b →
  tabulate r c (λ i j, F (get a i j) (get b i j)) = zip_with (zip_with F) a b.
Proof.
  intros Ha Hb. apply list_eq. intros i.
  destruct (decide (i < r)) as [Hi|Hi].
  - rewrite lookup_tabulate by done.
    destruct (lookup_lt_is_Some_2 a i) as [xs Hx]; [destruct Ha; lia|].
    destruct (lookup_lt_is_Some_2 b i) as [ys Hy]; [destruct Hb; lia|].
    rewrite lookup_zip_with, Hx. simpl. rewrite Hy. simpl. f_equal.
    pose proof (wf_mat_lookup _ _ _ _ _ Ha Hx) as Lx.
    pose proof (wf_mat_lookup _ _ _ _ _ Hb Hy) as Ly.
    apply list_eq. intros j. rewrite list_lookup_fmap, lookup_zip_with.
    destruct (decide (j < c)) as [Hj|Hj].
    + rewrite lookup_seq_lt by done. simpl.
      rewrite (get_row _ _ _ _ Hx), (get_row _ _ _ _ Hy).
      destruct (lookup_lt_is_Some_2 xs j) as [x Hxj]; [lia|].
      destruct (lookup_lt_is_Some_2 ys j) as [y Hyj]; [lia|].
      by rewrite Hxj, Hyj.
    + rewrite lookup_seq_ge by lia. simpl.
      by rewrite (proj2 (lookup_ge_None xs j)) by lia.
  - rewrite (proj2 (lookup_ge_None _ _)) by (rewrite length_tabulate; lia).
    symmetry. apply lookup_ge_None. rewrite length_zip_with.
    destruct Ha, Hb; lia.
Qed.

Lemma frame_of_T C T rows :
  wf_mat C T rows → pd_DataFrame (np_T (Arr2 C T rows)) = mkDataFrame T rows.
Proof. intros H. simpl. f_equal. by apply transpose_transpose. Qed.

Lemma to_numpy_T C T cols :
  wf_mat C T cols → np_T (to_numpy (mkDataFrame T cols)) = Arr2 C T cols.
Proof.
  intros H. unfold to_numpy. simpl. destruct H as [HC HT].
  rewrite HC. f_equal. by apply transpose_transpose.
Qed.

Lemma rolling_Some df w mp :
  (0 ≤ w)%Z →
  match mp with Some m => (0 ≤ m ≤ w)%Z | None => True end →
  rolling df w mp = Some (mkRolling df (Z.to_nat w) (Z.to_nat <$> mp)).
Proof.
  intros Hw Hm. unfold rolling.
  destruct (Z.ltb_spec w 0); [lia|]. destruct mp as [m|]; [|done].
  destruct (Z.ltb_spec m 0); [lia|]. destruct (Z.ltb_spec w m); [lia|]. done.
Qed.

Lemma calc_f0_2d C T rows (t1 t2 mp : Z) :
  wf_mat C T rows → (0 ≤ t1)%Z → (0 ≤ mp ≤ t2)%Z →
  _calc_f0 (Arr2 C T rows) t1 t2 mp =
    Some (mkDataFrame T
            (f0_col (Z.to_nat t1) (Z.to_nat t2) (Z.to_nat mp) <$> rows)).
Proof.
  intros Hwf H1 H2. unfold _calc_f0. rewrite (frame_of_T _ _ _ Hwf).
  rewrite rolling_Some by (done || lia). simpl.
  rewrite rolling_Some by (done || lia). simpl.
  unfold df_add_scalar, rolling_min, rolling_boxcar_mean, df_apply. simpl.
  f_equal. f_equal. rewrite <- !list_fmap_compose. done.
Qed.

Lemma raw_calc_2d C T rows fcols lbf off :
  wf_mat C T rows → wf_mat C T fcols →
  raw_calc (to_numpy (mkDataFrame T fcols)) (Arr2 C T rows) lbf off =
    Some (Arr2 T C (tabulate T C (λ t c,
            ratio lbf off (get rows c t) (get fcols c t)))).
Proof.
  intros Hr Hf. unfold raw_calc, to_numpy. simpl.
  destruct (Hf) as [HC _]. rewrite HC.
  destruct lbf; unfold np_sub, np_div, np_binop; simpl;
    rewrite !bdim_same; simpl; rewrite !bdim_same; simpl;
    f_equal; f_equal; apply tabulate_ext; intros t c Ht Hc;
    repeat first
      [ rewrite bidx_lt by done
      | rewrite get_tabulate by done
      | rewrite (get_fmap _ T C) by first [done | apply wf_tabulate] ];
    done.
Qed.

Lemma calc_dff_unfiltered_2d C T rows fcols lbf off :
  wf_mat C T rows → wf_mat C T fcols →
  _calc_dff_unfiltered (mkDataFrame T fcols) (Arr2 C T rows) lbf off =
    Some (mkDataFrame T
            (zip_with (λ xs fs, fill0 <$> zip_with (ratio lbf off) xs fs)
                      rows fcols)).
Proof.
  intros Hr Hf. unfold _calc_dff_unfiltered.
  rewrite (raw_calc_2d _ _ _ _ _ _ Hr Hf). simpl.
  unfold fillna0, df_apply. simpl. f_equal. f_equal.
  etrans.
  { apply (f_equal (fmap (fmap fill0))).
    etrans; [|apply (tabulate_zip_with (ratio lbf off) C T rows fcols Hr Hf)].
    apply tabulate_ext. intros c t Hc Ht. by rewrite get_tabulate. }
  clear. revert fcols. induction rows as [|xs rows IH]; intros [|fs fcols];
    simpl; try done. by rewrite IH.
Qed.

Lemma filter_dff_Some df (t0 : R) (mp : Z) :
  (0 < t0)%R →
  _filter_dff df t0 mp =
    Some (mkDataFrame (nindex df)
       (filter_col (com_of_halflife t0) (Z.to_nat mp)
          <$> columns df)).
Proof.
  intros H. unfold _filter_dff, ewm, get_center_of_mass.
  destruct (Rle_dec t0 0); [lra|]. simpl.
  unfold fillna0, ewm_mean, df_apply. simpl. f_equal. f_equal.
  by rewrite <- list_fmap_compose.
Qed.

Lemma calc_f0_None a (t1 t2 mp : Z) :
  (t1 < 0 ∨ t2 < mp)%Z → (0 ≤ mp)%Z → _calc_f0 a t1 t2 mp = None.
Proof.
  intros H Hmp. unfold _calc_f0, rolling.
  destruct (Z.ltb_spec t1 0); [done|]. simpl.
  destruct (Z.ltb_spec t2 0); [done|].
  destruct (Z.ltb_spec mp 0); [lia|]. destruct (Z.ltb_spec t2 mp); [done|lia].
Qed.

Lemma filter_dff_None df (t0 : R) mp : (t0 <= 0)%R → _filter_dff df t0 mp = None.
Proof.
  intros H. unfold _filter_dff, ewm, get_center_of_mass.
  by destruct (Rle_dec t0 0).
Qed.

Lemma params_ok_dec fps tau_0 tau_1 tau_2 :
  {params_ok fps tau_0 tau_1 tau_2} + {¬ params_ok fps tau_0 tau_1 tau_2}.
Proof.
  unfold params_ok, _apply_units_and_corrections.
  destruct (Rlt_dec 0 (fps * tau_0)); [|right; tauto].
  destruct (decide (0 ≤ py_int (fps * tau_1))%Z); [|right; tauto].
  destruct (decide (Z.max 1 (py_int (fps / 10)) ≤ py_int (fps * tau_2))%Z);
    [left|right]; tauto.
Qed.

Lemma wf_mat_neg C T rows :
  wf_mat C T rows → wf_mat C T (fmap (M:=list) (fmap (M:=list) vneg) rows).
Proof. intros H. apply wf_mat_fmap; [done|]. intros xs. apply length_fmap. Qed.

(** On a 2-D input every row goes through [dff_row], on its own. *)
Lemma dff_calc_2d C T rows fps tau_0 tau_1 tau_2 invert lbf :
  wf_mat C T rows → params_ok fps tau_0 tau_1 tau_2 →
  dff_calc (Arr2 C T rows) fps tau_0 tau_1 tau_2 invert lbf =
    Some (Arr2 C T (dff_row fps tau_0 tau_1 tau_2 lbf <$>
                      (if invert then fmap vneg <$> rows else rows))).
Proof.
  intros Hwf Hok. unfold dff_calc, dff_row, params_ok in *.
  destruct (_apply_units_and_corrections fps tau_0 tau_1 tau_2)
    as [[[t0 t1] t2] mp] eqn:E.
  assert (1 ≤ mp)%Z as Hmp.
  { unfold _apply_units_and_corrections in E. inversion E. lia. }
  destruct Hok as (H0 & H1 & H2).
  set (rows' := if invert then fmap (M:=list) (fmap (M:=list) vneg) rows else rows).
  assert (wf_mat C T rows') as Hwf'.
  { unfold rows'. destruct invert; [by apply wf_mat_neg|done]. }
  replace (if invert then np_neg (Arr2 C T rows) else Arr2 C T rows)
    with (Arr2 C T rows') by (by destruct invert).
  rewrite (calc_f0_2d _ _ _ _ _ _ Hwf') by lia. simpl.
  rewrite (calc_dff_unfiltered_2d _ _ _ _ _ _ Hwf')
    by (apply wf_mat_fmap; [done|apply length_f0_col]).
  simpl. rewrite filter_dff_Some by done. simpl.
  f_equal. rewrite zip_with_fmap_r, zip_with_diag, <- list_fmap_compose.
  apply to_numpy_T.
  apply (wf_mat_fmap (channel_dff _ _ _ _ _)); [done|].
  apply length_channel_dff.
Qed.

Lemma dff_calc_2d_invalid C T rows fps tau_0 tau_1 tau_2 invert lbf :
  wf_mat C T rows → ¬ params_ok fps tau_0 tau_1 tau_2 →
  dff_calc (Arr2 C T rows) fps tau_0 tau_1 tau_2 invert lbf = None.
Proof.
  intros Hwf Hok. unfold dff_calc, params_ok in *.
  destruct (_apply_units_and_corrections fps tau_0 tau_1 tau_2)
    as [[[t0 t1] t2] mp] eqn:E.
  assert (1 ≤ mp)%Z as Hmp.
  { unfold _apply_units_and_corrections in E. inversion E. lia. }
  set (rows' := if invert then fmap (M:=list) (fmap (M:=list) vneg) rows else rows).
  assert (wf_mat C T rows') as Hwf'.
  { unfold rows'. destruct invert; [by apply wf_mat_neg|done]. }
  replace (if invert then np_neg (Arr2 C T rows) else Arr2 C T rows)
    with (Arr2 C T rows') by (by destruct invert).
  destruct (decide (0 ≤ t1 ∧ mp ≤ t2)%Z) as [[H1 H2]|H12].
  - rewrite (calc_f0_2d _ _ _ _ _ _ Hwf') by lia. simpl.
    rewrite (calc_dff_unfiltered_2d _ _ _ _ _ _ Hwf')
      by (apply wf_mat_fmap; [done|apply length_f0_col]).
    simpl. rewrite filter_dff_None; [done|].
    destruct (Rlt_dec 0 t0); [tauto|lra].
  - rewrite calc_f0_None; [done|lia|lia].
Qed.

(** ** 1-D input: the subtraction broadcasts *)

Lemma bidx_1 i : bidx 1 i = 0.
Proof. done. Qed.

Lemma bdim_1_l n : bdim 1 n = Some n.
Proof. unfold bdim. destruct (Nat.eqb_spec 1 n); by subst. Qed.

Lemma bdim_1_r n : bdim n 1 = Some n.
Proof.
  unfold bdim. destruct (Nat.eqb_spec n 1); [done|].
  by destruct (Nat.eqb_spec n 1).
Qed.

Lemma length_concat_tabulate r c f : length (concat (tabulate r c f)) = r * c.
Proof.
  unfold tabulate. generalize 0 at 2. induction r as [|r IH]; intros s; simpl.
  - done.
  - by rewrite length_app, IH, length_fmap, length_seq.
Qed.

Lemma calc_f0_1d xs (t1 t2 mp : Z) :
  (0 ≤ t1)%Z → (0 ≤ mp ≤ t2)%Z →
  _calc_f0 (Arr1 xs) t1 t2 mp =
    Some (mkDataFrame (length xs)
            [f0_col (Z.to_nat t1) (Z.to_nat t2) (Z.to_nat mp) xs]).
Proof.
  intros H1 H2. unfold _calc_f0. simpl.
  rewrite rolling_Some by (done || lia). simpl.
  rewrite rolling_Some by (done || lia). done.
Qed.

(** The raw ratio of a 1-D input of length T is a T x T table: entry (i, j)
    pairs sample j with the baseline at time i. *)
Lemma raw_calc_1d xs fs lbf off :
  raw_calc (to_numpy (mkDataFrame (length xs) [fs])) (Arr1 xs) lbf off =
    Some (Arr2 (length xs) (length xs)
            (tabulate (length xs) (length xs) (λ i j,
               ratio lbf off (default NaN (xs !! j)) (default NaN (fs !! i))))).
Proof.
  set (T := length xs).
  assert (∀ f j, j < T →
    default NaN ((f <$> xs) !! j) = f (default NaN (xs !! j))) as Hxs.
  { intros f j Hj. rewrite list_lookup_fmap.
    destruct (lookup_lt_is_Some_2 xs j) as [x Hx]; [done|]. by rewrite Hx. }
  unfold raw_calc, to_numpy, np_sub, np_div, np_binop. simpl.
  destruct lbf; simpl; rewrite ?length_fmap; fold T;
    rewrite bdim_1_l, bdim_1_r; simpl; rewrite bdim_same, bdim_1_r; simpl;
    f_equal; f_equal; apply tabulate_ext; intros i j Hi Hj;
    rewrite ?bidx_1, ?(bidx_lt T) by done; unfold ratio;
    rewrite get_tabulate by done;
    rewrite ?bidx_1, ?(bidx_lt T) by done.
  - rewrite (get_fmap _ T 1) by first [apply wf_tabulate | done | lia].
    rewrite !get_tabulate by (done || lia).
    unfold get. simpl. by rewrite Hxs.
  - rewrite !get_tabulate by (done || lia). done.
Qed.

Lemma dff_calc_1d_shape xs fps tau_0 tau_1 tau_2 invert lbf :
  params_ok fps tau_0 tau_1 tau_2 →
  shape <$> dff_calc (Arr1 xs) fps tau_0 tau_1 tau_2 invert lbf =
    Some [1; length xs * length xs].
Proof.
  intros Hok. unfold dff_calc, params_ok in *.
  destruct (_apply_units_and_corrections fps tau_0 tau_1 tau_2)
    as [[[t0 t1] t2] mp] eqn:E.
  assert (1 ≤ mp)%Z as Hmp.
  { unfold _apply_units_and_corrections in E. inversion E. lia. }
  destruct Hok as (H0 & H1 & H2).
  set (xs' := if invert then vneg <$> xs else xs).
  assert (length xs' = length xs) as Hl.
  { unfold xs'. destruct invert; [apply length_fmap|done]. }
  replace (if invert then np_neg (Arr1 xs) else Arr1 xs)
    with (Arr1 xs') by (by destruct invert).
  rewrite calc_f0_1d by lia. simpl.
  unfold _calc_dff_unfiltered. rewrite raw_calc_1d. simpl.
  rewrite filter_dff_Some by done. simpl.
  rewrite !length_fmap, !length_tabulate, length_concat_tabulate.
  by rewrite Hl.
Qed.

(** ** The parameter normalizer *)

Lemma Int_part_bounds x : (IZR (Int_part x) <= x < IZR (Int_part x) + 1)%R.
Proof. destruct (base_Int_part x). lra. Qed.

Lemma Int_part_eq x z : (IZR z <= x < IZR z + 1)%R → Int_part x = z.
Proof. intros H. symmetry. apply Int_part_spec. lra. Qed.

Lemma py_int_nonneg x : (0 <= x)%R → py_int x = floor x.
Proof. intros H. unfold py_int, floor. destruct (Rlt_dec x 0); [lra|done]. Qed.

Lemma py_int_eq x z : (0 <= IZR z <= x)%R → (x < IZR z + 1)%R → py_int x = z.
Proof.
  intros H1 H2. rewrite py_int_nonneg by lra. apply Int_part_eq. lra.
Qed.

Lemma py_int_neg_le x : (x < 0)%R → (py_int x ≤ 0)%Z.
Proof.
  intros H. unfold py_int. destruct (Rlt_dec x 0); [|lra].
  pose proof (Int_part_bounds (- x)) as [_ Hb].
  assert (-1 < Int_part (- x))%Z; [|lia].
  apply lt_IZR. lra.
Qed.

Lemma floor_neg_lt x : (x < 0)%R → (floor x < 0)%Z.
Proof.
  intros H. unfold floor. pose proof (Int_part_bounds x) as [Hb _].
  apply lt_IZR. lra.
Qed.

Lemma min_per_floor fps :
  Z.max 1 (py_int (fps / 10)) = Z.max 1 (floor (fps / 10)).
Proof.
  destruct (Rlt_dec (fps / 10) 0) as [H|H].
  - pose proof (py_int_neg_le _ H). pose proof (floor_neg_lt _ H). lia.
  - rewrite py_int_nonneg by lra. done.
Qed.

(** The parameters the signature defaults to: 30 Hz, 0.1 s, 0.35 s, 2 s. *)
Lemma default_units :
  _apply_units_and_corrections 30 (1 / 10) (35 / 100) 2 =
    ((30 * (1 / 10))%R, 10%Z, 60%Z, 3%Z).
Proof.
  unfold _apply_units_and_corrections.
  rewrite (py_int_eq (30 * (35 / 100)) 10) by lra.
  rewrite (py_int_eq (30 * 2) 60) by lra.
  rewrite (py_int_eq (30 / 10) 3) by lra. done.
Qed.

Lemma default_params_ok : params_ok 30 (1 / 10) (35 / 100) 2.
Proof. unfold params_ok. rewrite default_units. repeat split; (lra || lia). Qed.

(** C6 (amended): whenever the products [fps * tau_1] and [fps * tau_2] are
    non-negative, the parameter normalizer returns [fps * tau_0] as a real,
    [floor (fps * tau_1)], [floor (fps * tau_2)] and
    [max 1 (floor (fps / 10))]. *)
Theorem apply_units_floor fps tau_0 tau_1 tau_2 :
  (0 <= fps * tau_1)%R → (0 <= fps * tau_2)%R →
  _apply_units_and_corrections fps tau_0 tau_1 tau_2 =
    normalizer_spec fps tau_0 tau_1 tau_2.
Proof.
  intros H1 H2. unfold _apply_units_and_corrections, normalizer_spec.
  by rewrite !py_int_nonneg, min_per_floor by done.
Qed.

Lemma apply_units_floor_witness :
  (0 <= 30 * (35 / 100))%R ∧ (0 <= 30 * 2)%R ∧
  _apply_units_and_corrections 30 (1 / 10) (35 / 100) 2 =
    normalizer_spec 30 (1 / 10) (35 / 100) 2.
Proof.
  split; [lra|]. split; [lra|]. apply apply_units_floor; lra.
Defined.

(** C6, as stated, fails where a product is negative and not an integer:
    [int] truncates toward zero, so one frame per second and a time constant
    of -0.5 s give a window of 0 samples, while the floor is -1. *)
Lemma apply_units_truncates :
  _apply_units_and_corrections 1 0 (-1 / 2) 0 ≠ normalizer_spec 1 0 (-1 / 2) 0.
Proof.
  unfold _apply_units_and_corrections, normalizer_spec. intros H.
  assert (py_int (1 * (-1 / 2)) = floor (1 * (-1 / 2))) as E by congruence.
  clear H. unfold py_int, floor in E.
  destruct (Rlt_dec (1 * (-1 / 2)) 0) as [_|]; [|lra].
  rewrite (Int_part_eq (- (1 * (-1 / 2))) 0) in E by (simpl; lra).
  rewrite (Int_part_eq (1 * (-1 / 2)) (-1)) in E by (simpl; lra).
  done.
Qed.

(** X2: on a well-formed (C, T) matrix, with parameters that do not raise,
    the call returns a (C, T) matrix. *)
Lemma dff_calc_2d_shape C T rows fps tau_0 tau_1 tau_2 invert lbf :
  wf_mat C T rows → params_ok fps tau_0 tau_1 tau_2 →
  ∃ out, dff_calc (Arr2 C T rows) fps tau_0 tau_1 tau_2 invert lbf =
           Some (Arr2 C T out) ∧ wf_mat C T out.
Proof.
  intros Hwf Hok. eexists. split; [by apply dff_calc_2d|].
  apply wf_mat_fmap.
  - destruct invert; [by apply wf_mat_neg|done].
  - intros xs. unfold dff_row.
    destruct (_apply_units_and_corrections _ _ _ _) as [[[??]?]?].
    apply length_channel_dff.
Qed.

(** C1, the 1-D half fails on the code: with the default parameters a 1-D
    trace of two samples comes back with shape (1, 4), not (1, 2).  The
    baseline of a 1-D input is a column of shape (T, 1), so [data.T - f0]
    broadcasts to T x T before the result is flattened. *)
Theorem dff_calc_1d_two_samples :
  shape <$> dff_calc (Arr1 [Num 1; Num 2]) 30 (1 / 10) (35 / 100) 2 false false
    = Some [1; 4].
Proof. by rewrite dff_calc_1d_shape by apply default_params_ok. Qed.

(** C8: with [invert=True] on [x] the call computes what it computes with
    [invert=False] on [-x]. *)
Theorem inversion_symmetry x fps tau_0 tau_1 tau_2 lbf :
  dff_calc x fps tau_0 tau_1 tau_2 true lbf =
    dff_calc (np_neg x) fps tau_0 tau_1 tau_2 false lbf.
Proof. reflexivity. Qed.

(** C9: row [i] of the result on the whole matrix is the result on row [i]
    alone (also when the parameters make the call raise). *)
Theorem channel_independence C T rows i xs fps tau_0 tau_1 tau_2 invert lbf :
  wf_mat C T rows → rows !! i = Some xs →
  dff_calc (Arr2 C T rows) fps tau_0 tau_1 tau_2 invert lbf ≫= row i =
    dff_calc (Arr2 1 T [xs]) fps tau_0 tau_1 tau_2 invert lbf ≫= row 0.
Proof.
  intros Hwf Hx.
  assert (wf_mat 1 T [xs]) as Hwf1.
  { split; [done|]. apply Forall_singleton.
    by apply (wf_mat_lookup _ _ _ _ _ Hwf Hx). }
  destruct (params_ok_dec fps tau_0 tau_1 tau_2) as [Hok|Hok].
  - rewrite !dff_calc_2d by done. simpl.
    rewrite list_lookup_fmap.
    destruct invert; simpl; rewrite ?list_lookup_fmap, Hx; done.
  - by rewrite !dff_calc_2d_invalid.
Qed.

Lemma channel_independence_witness :
  wf_mat 2 1 [[Num 1]; [Num 2]] ∧ [[Num 1]; [Num 2]] !! 1 = Some [Num 2] ∧
  dff_calc (Arr2 2 1 [[Num 1]; [Num 2]]) 30 (1 / 10) (35 / 100) 2 false false
      ≫= row 1 =
    dff_calc (Arr2 1 1 [[Num 2]]) 30 (1 / 10) (35 / 100) 2 false false
      ≫= row 0.
Proof.
  assert (wf_mat 2 1 [[Num 1]; [Num 2]]) as Hwf.
  { split; [reflexivity|]. repeat constructor. }
  split; [exact Hwf|]. split; [reflexivity|].
  apply (channel_independence 2 1 [[Num 1]; [Num 2]] 1 [Num 2]);
    [exact Hwf|reflexivity].
Defined.

(** ** The raw ratio *)

Lemma vdiv_Num x y : (y ≠ 0)%R → vdiv (Num x) (Num y) = Num (x / y).
Proof. intros H. unfold vdiv, Reqb. by destruct (Req_dec_T y 0). Qed.

Lemma ratio_Num lbf off x f :
  (0 < f)%R → (0 <= off)%R →
  ratio lbf off (Num x) (Num f) =
    Num (if lbf then (x + 2 * off - f) / (f + off) else (x - f) / f).
Proof.
  intros Hf Ho. unfold ratio, vsub.
  destruct lbf; cbn [vadd vneg]; rewrite vdiv_Num by lra; done.
Qed.

(** C2: where the trace holds a real [x] and the baseline a real [f > 0],
    the array [raw_calc] holds [(x - f) / f] in standard mode and
    [(x + 2*offset - f) / (f + offset)], offset 0.05, in low-background
    mode; [fillna] then leaves that entry as it is. *)
Theorem raw_ratio_formula C T rows fcols (lbf : bool) c t (x f : R) :
  wf_mat C T rows → wf_mat C T fcols → c < C → t < T →
  get rows c t = Num x → get fcols c t = Num f → (0 < f)%R →
  let r : R := if lbf then ((x + 2 * (5 / 100) - f) / (f + 5 / 100))%R
               else ((x - f) / f)%R in
  ∃ raw unfiltered,
    raw_calc (to_numpy (mkDataFrame T fcols)) (Arr2 C T rows) lbf
      low_background_offset_value = Some (Arr2 T C raw) ∧
    get raw t c = Num r ∧
    _calc_dff_unfiltered (mkDataFrame T fcols) (Arr2 C T rows) lbf
      low_background_offset_value = Some unfiltered ∧
    get (columns unfiltered) c t = Num r.
Proof.
  intros Hr Hf Hc Ht Hx Hfv Hpos r.
  assert (ratio lbf low_background_offset_value (Num x) (Num f) = Num r) as E.
  { rewrite ratio_Num; [done|done|unfold low_background_offset_value; lra]. }
  eexists _, _. split; [by apply raw_calc_2d|].
  split; [by rewrite get_tabulate, Hx, Hfv|].
  split; [by apply calc_dff_unfiltered_2d|]. simpl.
  destruct (lookup_lt_is_Some_2 rows c) as [xs Hxs]; [destruct Hr; lia|].
  destruct (lookup_lt_is_Some_2 fcols c) as [fs Hfs]; [destruct Hf; lia|].
  rewrite (get_row _ _ _ _ Hxs) in Hx. rewrite (get_row _ _ _ _ Hfs) in Hfv.
  pose proof (wf_mat_lookup _ _ _ _ _ Hr Hxs) as Lx.
  pose proof (wf_mat_lookup _ _ _ _ _ Hf Hfs) as Lf.
  destruct (lookup_lt_is_Some_2 xs t) as [x' Hx']; [lia|].
  destruct (lookup_lt_is_Some_2 fs t) as [f' Hf']; [lia|].
  rewrite Hx' in Hx. rewrite Hf' in Hfv. simpl in *. subst x' f'.
  unfold get. rewrite lookup_zip_with, Hxs. simpl. rewrite Hfs. simpl.
  rewrite list_lookup_fmap, lookup_zip_with, Hx'. simpl. rewrite Hf'. simpl.
  by rewrite E.
Qed.

Lemma raw_ratio_formula_witness :
  wf_mat 1 1 [[Num 3]] ∧ wf_mat 1 1 [[Num 2]] ∧ (0 < 2)%R ∧
  ∃ raw unfiltered,
    raw_calc (to_numpy (mkDataFrame 1 [[Num 2]])) (Arr2 1 1 [[Num 3]]) false
      low_background_offset_value = Some (Arr2 1 1 raw) ∧
    get raw 0 0 = Num ((3 - 2) / 2) ∧
    _calc_dff_unfiltered (mkDataFrame 1 [[Num 2]]) (Arr2 1 1 [[Num 3]]) false
      low_background_offset_value = Some unfiltered ∧
    get (columns unfiltered) 0 0 = Num ((3 - 2) / 2).
Proof.
  assert (∀ v, wf_mat 1 1 [[v]]) as Hwf.
  { intros v. split; [reflexivity|]. repeat constructor. }
  split; [apply Hwf|]. split; [apply Hwf|]. split; [lra|].
  apply (raw_ratio_formula 1 1 [[Num 3]] [[Num 2]] false 0 0 3 2);
    first [apply Hwf | lia | reflexivity | lra].
Defined.

(** ** The first stage: a trailing boxcar mean *)

Lemma observations_Num rs : observations (Num <$> rs) = rs.
Proof.
  unfold observations. induction rs as [|r rs IH]; [done|].
  cbn. by f_equal.
Qed.

Lemma window_Num n t rs :
  window n t (Num <$> rs) = Num <$> drop (S t - n) (take (S t) rs).
Proof. unfold window. by rewrite fmap_drop, fmap_take. Qed.

Lemma length_window {A} n t (xs : list A) :
  t < length xs → length (drop (S t - n) (take (S t) xs)) = Nat.min (S t) n.
Proof. intros H. rewrite length_drop, length_take. lia. Qed.

Lemma boxcar_mean_col_lookup n minp xs t :
  t < length xs →
  rolling_boxcar_mean_col n minp xs !! t =
    Some (boxcar_mean_at minp (window n t xs)).
Proof.
  intros H. unfold rolling_boxcar_mean_col.
  by rewrite list_lookup_fmap, lookup_seq_lt.
Qed.

Lemma boxcar_mean_col_Num n rs t :
  t < length rs →
  rolling_boxcar_mean_col n n (Num <$> rs) !! t =
    Some (if (S t <? n) || (n =? 0) then NaN
          else Num (Rsum (drop (S t - n) (take (S t) rs)) / INR n)).
Proof.
  intros H. rewrite boxcar_mean_col_lookup by (by rewrite length_fmap).
  f_equal. unfold boxcar_mean_at.
  rewrite window_Num, observations_Num, length_window by done.
  destruct (Nat.ltb_spec (S t) n), (Nat.eqb_spec n 0),
    (Nat.ltb_spec (S t `min` n) (n `max` 1)); cbn [orb]; try done; try lia.
  by rewrite Nat.min_r by lia.
Qed.

(** C3 (amended): the baseline estimator [_calc_f0] is its minimum stage
    applied to a first stage that computes, for every channel and timepoint
    [t], a trailing boxcar average of window length [tau_1] over the raw
    trace, the mean of the samples [t-tau_1+1 .. t]; a timepoint whose
    window holds fewer than [tau_1] samples is NaN, and the stage has no
    [min_periods] floor of its own. *)
Theorem calc_f0_first_stage C T rows (tau_1 tau_2 min_per : Z) c rs t :
  wf_mat C T rows → (0 ≤ tau_1)%Z → rows !! c = Some (Num <$> rs) → t < T →
  ∃ r1,
    rolling (pd_DataFrame (np_T (Arr2 C T rows))) tau_1 None = Some r1 ∧
    r_min_periods r1 = None ∧
    _calc_f0 (Arr2 C T rows) tau_1 tau_2 min_per =
      (r2 ← rolling (rolling_boxcar_mean r1) tau_2 (Some min_per);
       Some (df_add_scalar (rolling_min r2) float_eps)) ∧
    get (columns (rolling_boxcar_mean r1)) c t =
      let n := Z.to_nat tau_1 in
      if (S t <? n) || (n =? 0) then NaN
      else Num (Rsum (drop (S t - n) (take (S t) rs)) / INR n).
Proof.
  intros Hwf Ht1 Hc Ht. unfold _calc_f0. rewrite (frame_of_T _ _ _ Hwf).
  rewrite rolling_Some by done. eexists. split; [done|]. split; [done|].
  split; [done|].
  unfold rolling_boxcar_mean, df_apply. simpl.
  pose proof (wf_mat_lookup _ _ _ _ _ Hwf Hc) as Hl.
  rewrite length_fmap in Hl.
  unfold get. rewrite list_lookup_fmap, Hc. simpl.
  by rewrite boxcar_mean_col_Num by lia.
Qed.

Lemma calc_f0_first_stage_witness :
  wf_mat 1 3 [[Num 1; Num 2; Num 3]] ∧ (0 ≤ 3)%Z ∧ 2 < 3 ∧
  ∃ r1,
    rolling (pd_DataFrame (np_T (Arr2 1 3 [[Num 1; Num 2; Num 3]]))) 3 None
      = Some r1 ∧
    r_min_periods r1 = None ∧
    _calc_f0 (Arr2 1 3 [[Num 1; Num 2; Num 3]]) 3 1 1 =
      (r2 ← rolling (rolling_boxcar_mean r1) 1 (Some 1%Z);
       Some (df_add_scalar (rolling_min r2) float_eps)) ∧
    get (columns (rolling_boxcar_mean r1)) 0 2 =
      Num ((1 + (2 + (3 + 0))) / INR 3).
Proof.
  assert (wf_mat 1 3 [[Num 1; Num 2; Num 3]]) as Hwf.
  { split; [reflexivity|]. repeat constructor. }
  split; [exact Hwf|]. split; [lia|]. split; [lia|].
  apply (calc_f0_first_stage 1 3 [[Num 1; Num 2; Num 3]] 3 1 1 0
           [1; 2; 3]%R 2); [exact Hwf|lia|reflexivity|lia].
Defined.

(** C3, as stated, fails: on the trace 1, 2, 3 with a boxcar window of 3 (and
    a minimum over one sample, which leaves the first stage as it is) the
    code's baseline is NaN, NaN, 2 + eps; with a centered first stage it
    would be NaN, 2 + eps, NaN. *)
Lemma calc_f0_not_centered :
  ∃ f0 f0c,
    _calc_f0 (Arr2 1 3 [[Num 1; Num 2; Num 3]]) 3 1 1 = Some f0 ∧
    calc_f0_centered (Arr2 1 3 [[Num 1; Num 2; Num 3]]) 3 1 1 = Some f0c ∧
    columns f0 = [[NaN; NaN; Num (2 + float_eps)]] ∧
    columns f0c = [[NaN; Num (2 + float_eps); NaN]].
Proof.
  eexists _, _. split; [reflexivity|]. split; [reflexivity|].
  split; cbn; change (Z.to_nat 3) with 3; change (Z.to_nat 1) with 1; cbn;
    repeat f_equal; lra.
Qed.

(** ** The baseline and its sign *)

Lemma float_eps_bounds : (0 < float_eps < 1)%R.
Proof.
  unfold float_eps.
  assert (1 < 2 ^ 52)%R as H by (apply Rlt_pow_R1; [lra|lia]).
  split.
  - apply Rinv_0_lt_compat. lra.
  - rewrite <- Rinv_1. apply Rinv_lt_contravar; lra.
Qed.

Lemma elem_of_observations r w : r ∈ observations w ↔ Num r ∈ w.
Proof.
  unfold observations. rewrite list_elem_of_omap. split.
  - intros (v & Hv & E). destruct v; simplify_eq/=. done.
  - intros H. by exists (Num r).
Qed.

Lemma elem_of_window v n t xs : v ∈ window n t xs → v ∈ xs.
Proof.
  unfold window. intros H.
  by apply (subseteq_take (S t)), (subseteq_drop (S t - n)).
Qed.

Lemma Rsum_nonneg l : Forall (λ r, 0 <= r)%R l → (0 <= Rsum l)%R.
Proof.
  unfold Rsum. induction 1 as [|r l Hr _ IH]; simpl; lra.
Qed.

Lemma foldl_Rmin_nonneg l x :
  (0 <= x)%R → Forall (λ r, 0 <= r)%R l → (0 <= foldl Rmin x l)%R.
Proof.
  intros Hx Hl. revert x Hx. induction Hl as [|r l Hr _ IH]; intros x Hx.
  - done.
  - simpl. apply IH. unfold Rmin. destruct (Rle_dec x r); lra.
Qed.

Lemma boxcar_mean_at_nonneg minp w m :
  (∀ r, Num r ∈ w → 0 <= r)%R → boxcar_mean_at minp w = Num m → (0 <= m)%R.
Proof.
  intros Hw. unfold boxcar_mean_at.
  destruct (Nat.ltb_spec (length (observations w)) (minp `max` 1)); [done|].
  intros [= <-].
  assert (0 <= Rsum (observations w))%R as Hs.
  { apply Rsum_nonneg, Forall_forall. intros r Hr.
    by apply Hw, elem_of_observations. }
  assert (0 < INR (length (observations w)))%R as Hn by (apply lt_0_INR; lia).
  unfold Rdiv. apply Rmult_le_pos; [done|].
  apply Rlt_le, Rinv_0_lt_compat, Hn.
Qed.

Lemma min_at_nonneg minp w m :
  (∀ r, Num r ∈ w → 0 <= r)%R → min_at minp w = Num m → (0 <= m)%R.
Proof.
  intros Hw. unfold min_at.
  destruct (observations w) as [|x rest] eqn:E; [done|].
  destruct (S (length rest) <? minp); [done|]. intros [= <-].
  assert (∀ r, r ∈ x :: rest → 0 <= r)%R as Hall.
  { intros r Hr. apply Hw, elem_of_observations. by rewrite E. }
  apply foldl_Rmin_nonneg.
  - apply Hall. left.
  - apply Forall_forall. intros r Hr. apply Hall. by right.
Qed.

Lemma f0_col_pos n1 n2 minp xs f :
  (∀ r, Num r ∈ xs → 0 <= r)%R → Num f ∈ f0_col n1 n2 minp xs → (0 < f)%R.
Proof.
  intros Hxs Hf. unfold f0_col in Hf.
  apply list_elem_of_fmap in Hf as (v & Ev & Hv).
  unfold rolling_min_col in Hv.
  apply list_elem_of_fmap in Hv as (t & -> & _).
  destruct (min_at _ _) as [| |m] eqn:Em; simplify_eq/=.
  pose proof float_eps_bounds.
  enough (0 <= m)%R by lra.
  eapply min_at_nonneg; [|exact Em].
  intros r Hr. apply elem_of_window in Hr.
  unfold rolling_boxcar_mean_col in Hr.
  apply list_elem_of_fmap in Hr as (t' & Hr & _). symmetry in Hr.
  eapply boxcar_mean_at_nonneg; [|exact Hr].
  intros r' Hr'. by apply Hxs, (elem_of_window _ n1 t').
Qed.

Lemma calc_f0_Some_inv a (t1 t2 mp : Z) df :
  _calc_f0 a t1 t2 mp = Some df → (0 ≤ t1)%Z ∧ (0 ≤ mp ≤ t2)%Z.
Proof.
  unfold _calc_f0, rolling.
  destruct (Z.ltb_spec t1 0); [done|]. simpl.
  destruct (Z.ltb_spec t2 0); [done|].
  destruct (Z.ltb_spec mp 0); [done|]. destruct (Z.ltb_spec t2 mp); [done|].
  lia.
Qed.

Lemma calc_f0_columns a (t1 t2 mp : Z) df :
  wf a → _calc_f0 a t1 t2 mp = Some df →
  columns df =
    f0_col (Z.to_nat t1) (Z.to_nat t2) (Z.to_nat mp) <$> channels a.
Proof.
  intros Hwf H. destruct (calc_f0_Some_inv _ _ _ _ _ H) as [H1 H2].
  destruct a as [xs|C T rows].
  - rewrite calc_f0_1d in H by done. by simplify_eq.
  - rewrite (calc_f0_2d _ _ _ _ _ _ Hwf) in H by done. by simplify_eq.
Qed.

Lemma get_Num m i j f :
  get m i j = Num f → ∃ xs, m !! i = Some xs ∧ xs !! j = Some (Num f).
Proof.
  unfold get. destruct (m !! i) as [xs|]; [|done]. simpl.
  destruct (xs !! j) as [v|] eqn:E; [|done]. simpl. intros ->. eauto.
Qed.

(** C4 (amended): for every input trace whose real entries are all
    non-negative, every defined entry of the baseline table F0 is strictly
    positive. *)
Theorem f0_positive data (tau_1 tau_2 min_per : Z) df i j f :
  wf data → nonneg data → _calc_f0 data tau_1 tau_2 min_per = Some df →
  get (columns df) i j = Num f → (0 < f)%R.
Proof.
  intros Hwf Hnn Hdf Hf.
  rewrite (calc_f0_columns _ _ _ _ _ Hwf Hdf) in Hf.
  apply get_Num in Hf as (col & Hcol & Hf).
  rewrite list_lookup_fmap in Hcol.
  destruct (channels data !! i) as [xs|] eqn:Hxs; [|done]. simplify_eq/=.
  eapply f0_col_pos; [|by eapply list_elem_of_lookup_2].
  intros r Hr. eapply Hnn; [|exact Hr]. by eapply list_elem_of_lookup_2.
Qed.

(** C4, as stated, fails: the one-sample trace -1 has the baseline
    -1 + eps, which is defined and negative. *)
Lemma f0_negative :
  ∃ df f, _calc_f0 (Arr2 1 1 [[Num (-1)]]) 1 1 1 = Some df ∧
          get (columns df) 0 0 = Num f ∧ (f < 0)%R.
Proof.
  eexists _, _. split; [reflexivity|]. split; [reflexivity|].
  pose proof float_eps_bounds. simpl. lra.
Qed.

Lemma f0_positive_witness :
  let data := Arr2 1 1 [[Num 1]] in
  let f := ((1 + 0) / INR 1 + float_eps)%R in
  let df := mkDataFrame 1 [[Num f]] in
  wf data ∧ nonneg data ∧ _calc_f0 data 1 1 1 = Some df ∧
  get (columns df) 0 0 = Num f ∧ (0 < f)%R.
Proof.
  intros data f df.
  assert (wf data) as Hwf.
  { split; [reflexivity|]. repeat constructor. }
  assert (nonneg data) as Hnn.
  { intros xs r Hxs Hr. apply list_elem_of_singleton in Hxs. subst xs.
    apply list_elem_of_singleton in Hr. injection Hr as ->. lra. }
  split; [exact Hwf|]. split; [exact Hnn|].
  split; [reflexivity|]. split; [reflexivity|].
  apply (f0_positive data 1 1 1 df 0 0 f Hwf Hnn); reflexivity.
Defined.

(** ** Warm-up: no baseline yet, zero out *)

Lemma length_observations w : length (observations w) ≤ length w.
Proof.
  unfold observations. induction w as [|v w IH]; [done|].
  cbn. destruct (finite v); simpl; lia.
Qed.

Lemma length_window_le n t (xs : list val) : length (window n t xs) ≤ S t.
Proof. unfold window. rewrite length_drop, length_take. lia. Qed.

Lemma boxcar_mean_warmup n xs t :
  S t < n → boxcar_mean_at n (window n t xs) = NaN.
Proof.
  intros H. unfold boxcar_mean_at.
  pose proof (length_observations (window n t xs)).
  pose proof (length_window_le n t xs).
  by destruct (Nat.ltb_spec (length (observations (window n t xs)))
                 (n `max` 1)); [|lia].
Qed.

Lemma length_observations_take l p m :
  Forall (λ v, finite v = None) (take p l) →
  length (observations (take m l)) ≤ m - p.
Proof.
  revert p m. induction l as [|v l IH]; intros p m H.
  - rewrite take_nil. simpl. lia.
  - destruct m as [|m]; [simpl; lia|]. destruct p as [|p].
    + pose proof (length_observations (take (S m) (v :: l))).
      rewrite length_take in *. lia.
    + simpl in H. apply Forall_cons in H as [Hv H].
      cbn. rewrite Hv. by apply IH.
Qed.

Lemma length_observations_drop k l :
  length (observations (drop k l)) ≤ length (observations l).
Proof.
  rewrite <- (take_drop k l) at 2. unfold observations.
  rewrite omap_app, length_app. lia.
Qed.

Lemma min_at_NaN minp w : length (observations w) < minp → min_at minp w = NaN.
Proof.
  unfold min_at. destruct (observations w) as [|x rest]; [done|]. simpl.
  intros H. by destruct (Nat.ltb_spec (S (length rest)) minp); [|lia].
Qed.

Lemma f0_col_warmup n1 n2 minp xs t :
  t < length xs → S t - (n1 - 1) < minp →
  f0_col n1 n2 minp xs !! t = Some NaN.
Proof.
  intros Ht H. unfold f0_col, rolling_min_col.
  rewrite list_lookup_fmap, list_lookup_fmap, length_rolling_boxcar_mean_col.
  rewrite lookup_seq_lt by done. simpl. rewrite min_at_NaN; [done|].
  eapply Nat.le_lt_trans; [|exact H]. unfold window.
  etrans; [apply length_observations_drop|].
  apply length_observations_take, Forall_forall. intros v Hv.
  apply elem_of_take in Hv as (i & Hi & Hlt).
  assert (i < length xs) as Hil.
  { apply lookup_lt_Some in Hi.
    by rewrite length_rolling_boxcar_mean_col in Hi. }
  rewrite boxcar_mean_col_lookup in Hi by done.
  rewrite boxcar_mean_warmup in Hi by lia. by simplify_eq.
Qed.

Lemma ratio_NaN lbf off x : ratio lbf off x NaN = NaN.
Proof. by destruct lbf, x. Qed.

Lemma unfiltered_col_warmup n1 n2 minp lbf xs t :
  t < length xs → S t - (n1 - 1) < minp →
  unfiltered_col n1 n2 minp lbf xs !! t = Some (Num 0).
Proof.
  intros Ht H. unfold unfiltered_col.
  rewrite list_lookup_fmap, lookup_zip_with.
  rewrite (f0_col_warmup _ _ _ _ _ Ht H).
  destruct (lookup_lt_is_Some_2 xs t Ht) as [x ->]. simpl.
  by rewrite ratio_NaN.
Qed.

Lemma ewm_out_zero minp st :
  weighted st = Some 0%R → fill0 (ewm_out minp st) = Num 0.
Proof. intros H. unfold ewm_out. rewrite H. by destruct (_ <? _). Qed.

Lemma ewm_step_zero q w st :
  weighted st = Some 0%R → weighted (ewm_step q w st (Some 0%R)) = Some 0%R.
Proof.
  intros H. unfold ewm_step. rewrite H. simpl.
  by destruct (Req_dec_T 0 0).
Qed.

Lemma ewm_loop_zero q w minp vals : ∀ st k t,
  weighted st = Some 0%R →
  (∀ i, i < k → vals !! i = Some (Some 0%R)) → t < k →
  ∃ v, ewm_loop q w minp st vals !! t = Some v ∧ fill0 v = Num 0.
Proof.
  induction vals as [|cur vals IH]; intros st k t Hst Hz Ht.
  - specialize (Hz t Ht). done.
  - assert (cur = Some 0%R) as ->.
    { specialize (Hz 0 ltac:(lia)). by simplify_eq/=. }
    simpl. destruct t as [|t]; simpl.
    + eexists. split; [done|]. by apply ewm_out_zero, ewm_step_zero.
    + apply (IH _ (pred k)); [by apply ewm_step_zero| |lia].
      intros i Hi. apply (Hz (S i)). lia.
Qed.

Lemma filter_col_zero com minp ys t :
  (∀ i, i ≤ t → ys !! i = Some (Num 0)) →
  filter_col com minp ys !! t = Some (Num 0).
Proof.
  intros Hz. unfold filter_col, ewm_mean_col. rewrite list_lookup_fmap.
  destruct ys as [|y ys]; [by specialize (Hz 0 ltac:(lia))|].
  assert (y = Num 0) as ->.
  { specialize (Hz 0 ltac:(lia)). by simplify_eq/=. }
  cbn [fmap list_fmap finite]. destruct t as [|t]; simpl.
  - f_equal. by apply ewm_out_zero.
  - edestruct (ewm_loop_zero (1 - 1 / (1 + com)) 1 (minp `max` 1)
                 (finite <$> ys) (ewm_init (Some 0%R)) (S t) t)
      as (v & -> & Hv); [done| |lia|by rewrite <- Hv].
    intros i Hi. rewrite list_lookup_fmap.
    specialize (Hz (S i) ltac:(lia)). simpl in Hz. by rewrite Hz.
Qed.

Lemma channel_dff_warmup n1 n2 minp com lbf xs t :
  t < length xs → S t - (n1 - 1) < minp →
  channel_dff n1 n2 minp com lbf xs !! t = Some (Num 0).
Proof.
  intros Ht H. unfold channel_dff. apply filter_col_zero.
  intros i Hi. apply unfiltered_col_warmup; lia.
Qed.

Lemma lookup_concat_rows (f : nat → nat → val) c r : ∀ s p v,
  concat ((λ i, f i <$> seq 0 c) <$> seq s r) !! p = Some v →
  ∃ i j, i < r ∧ j < c ∧ p = i * c + j ∧ v = f (s + i) j.
Proof.
  induction r as [|r IH]; intros s p v H; [done|].
  simpl in H. destruct (decide (p < c)) as [Hp|Hp].
  - rewrite lookup_app_l in H by (by rewrite length_fmap, length_seq).
    rewrite list_lookup_fmap, lookup_seq_lt in H by done. simplify_eq/=.
    exists 0, p. rewrite Nat.add_0_r. repeat split; lia.
  - rewrite lookup_app_r in H by (rewrite length_fmap, length_seq; lia).
    rewrite length_fmap, length_seq in H.
    apply IH in H as (i & j & Hi & Hj & Hpc & ->).
    exists (S i), j. replace (s + S i) with (S s + i) by lia.
    repeat split; lia.
Qed.

Lemma lookup_concat_tabulate r c f p v :
  concat (tabulate r c f) !! p = Some v →
  ∃ i j, i < r ∧ j < c ∧ p = i * c + j ∧ v = f i j.
Proof. intros H. by apply lookup_concat_rows in H. Qed.

(** What the call returns on a 1-D input: the flattened T x T table whose
    entry (i, j) is the smoothed ratio, at time i, of sample j against the
    baseline over time. *)
Lemma dff_calc_1d xs fps tau_0 tau_1 tau_2 (invert lbf : bool) :
  params_ok fps tau_0 tau_1 tau_2 →
  let '(t0, t1, t2, mp) := _apply_units_and_corrections fps tau_0 tau_1 tau_2 in
  let xs' := if invert then vneg <$> xs else xs in
  let T := length xs in
  let fs := f0_col (Z.to_nat t1) (Z.to_nat t2) (Z.to_nat mp) xs' in
  let col j :=
    filter_col (com_of_halflife t0) (Z.to_nat mp)
      (fill0 <$> ((λ i, ratio lbf low_background_offset_value
                          (default NaN (xs' !! j)) (default NaN (fs !! i)))
                    <$> seq 0 T)) in
  dff_calc (Arr1 xs) fps tau_0 tau_1 tau_2 invert lbf =
    Some (Arr2 1 (T * T)
            [concat (tabulate T T (λ i j, default NaN (col j !! i)))]).
Proof.
  intros Hok. unfold dff_calc, params_ok in *.
  destruct (_apply_units_and_corrections fps tau_0 tau_1 tau_2)
    as [[[t0 t1] t2] mp] eqn:E.
  assert (1 ≤ mp)%Z as Hmp.
  { unfold _apply_units_and_corrections in E. inversion E. lia. }
  destruct Hok as (H0 & H1 & H2).
  set (xs' := if invert then vneg <$> xs else xs).
  assert (length xs' = length xs) as Hl.
  { unfold xs'. destruct invert; [apply length_fmap|done]. }
  replace (if invert then np_neg (Arr1 xs) else Arr1 xs)
    with (Arr1 xs') by (by destruct invert).
  rewrite calc_f0_1d by lia. simpl.
  unfold _calc_dff_unfiltered. rewrite raw_calc_1d. simpl.
  rewrite filter_dff_Some by done. simpl.
  rewrite !length_fmap, !length_tabulate, length_concat_tabulate, Hl.
  do 4 f_equal. apply tabulate_ext. intros i j Hi Hj.
  unfold get at 1. rewrite !list_lookup_fmap, lookup_tabulate by done. simpl.
  do 4 f_equal. apply list_fmap_ext. intros k i' Hk.
  apply lookup_seq in Hk as [Hk' Hk]. simpl in Hk'. subst i'.
  by rewrite get_tabulate by done.
Qed.



(** With the default parameters the warm-up is the first 11 timepoints, and
    on a 2-D input those entries are there and 0. *)
Lemma default_warmup : warmup_samples 30 (1 / 10) (35 / 100) 2 = 11.
Proof. unfold warmup_samples. by rewrite default_units. Qed.

Lemma warmup_zero_2d C T rows fps tau_0 tau_1 tau_2 invert lbf c t :
  wf_mat C T rows → params_ok fps tau_0 tau_1 tau_2 →
  c < C → t < T → t < warmup_samples fps tau_0 tau_1 tau_2 →
  ∃ out,
    dff_calc (Arr2 C T rows) fps tau_0 tau_1 tau_2 invert lbf
      = Some (Arr2 C T out) ∧
    get out c t = Num 0.
Proof.
  intros Hwf Hok Hc Ht Hw. eexists. split; [by apply dff_calc_2d|].
  set (rows' := if invert then _ else _).
  assert (wf_mat C T rows') as Hwf'.
  { unfold rows'. destruct invert; [by apply wf_mat_neg|done]. }
  destruct (lookup_lt_is_Some_2 rows' c) as [xs Hxs]; [destruct Hwf'; lia|].
  pose proof (wf_mat_lookup _ _ _ _ _ Hwf' Hxs) as Hl.
  unfold get. rewrite list_lookup_fmap, Hxs. simpl.
  unfold dff_row, warmup_samples in *.
  destruct (_apply_units_and_corrections fps tau_0 tau_1 tau_2)
    as [[[t0 t1] t2] mp] eqn:E.
  assert (1 ≤ mp)%Z as Hmp.
  { unfold _apply_units_and_corrections in E. inversion E. lia. }
  rewrite channel_dff_warmup; [done|lia|lia].
Qed.

(** ** The exponential smoother *)

Section Smoother.
Variable h : R.
Hypothesis h_pos : (0 < h)%R.

Local Open Scope R_scope.

Let q : R := 1 - 1 / (1 + com_of_halflife h).

Lemma ln_half_neg : ln (1 / 2) < 0.
Proof.
  apply Rlt_le_trans with (ln 1); [|rewrite ln_1; lra].
  apply ln_increasing; lra.
Qed.

Lemma decay_factor_bounds : 0 < exp (ln (1 / 2) / h) < 1.
Proof.
  split; [apply exp_pos|].
  apply Rlt_le_trans with (exp 0); [|rewrite exp_0; lra].
  apply exp_increasing.
  pose proof ln_half_neg as Hl. set (l := ln (1 / 2)) in *.
  assert (0 < / h) by (by apply Rinv_0_lt_compat).
  unfold Rdiv. nra.
Qed.

(** The factor by which pandas ages the weight of the past at each step. *)
Lemma old_wt_factor_eq : q = exp (ln (1 / 2) / h).
Proof.
  unfold q, com_of_halflife. pose proof decay_factor_bounds.
  field. split; [lra|]. 
  intros E. field_simplify in E; lra.
Qed.

Lemma halving_weight_0 : halving_weight h 0 = 1.
Proof.
  unfold halving_weight, Rdiv. rewrite Rmult_0_l. apply Rpower_O. lra.
Qed.

Lemma halving_weight_1 : halving_weight h 1 = q.
Proof.
  rewrite old_wt_factor_eq. unfold halving_weight, Rpower. f_equal.
  unfold Rdiv. ring.
Qed.

Lemma halving_weight_plus a b :
  halving_weight h (a + b) = halving_weight h a * halving_weight h b.
Proof.
  unfold halving_weight. rewrite <- Rpower_plus. f_equal.
  unfold Rdiv. ring.
Qed.

Lemma halving_weight_S k :
  halving_weight h (INR (S k)) = q * halving_weight h (INR k).
Proof.
  rewrite S_INR, halving_weight_plus, halving_weight_1. ring.
Qed.

Lemma halving_weight_pos a : 0 < halving_weight h a.
Proof. unfold halving_weight, Rpower. apply exp_pos. Qed.

(** A lag of one half-life halves the weight. *)
Lemma halving_weight_halves lag :
  halving_weight h (lag + h) = halving_weight h lag / 2.
Proof.
  rewrite halving_weight_plus. unfold halving_weight at 2.
  replace (h / h) with 1 by (field; lra).
  rewrite Rpower_1 by lra. unfold Rdiv. ring.
Qed.

Lemma q_pos : 0 < q.
Proof. rewrite <- halving_weight_1. apply halving_weight_pos. Qed.

Lemma Rsum_cons x l : Rsum (x :: l) = x + Rsum l.
Proof. reflexivity. Qed.

Lemma Rsum_imap_scale {A} (c : R) (g : nat → A → R) l :
  Rsum (imap (λ k x, c * g k x) l) = c * Rsum (imap g l).
Proof.
  revert g. induction l as [|x l IH]; intros g; simpl.
  - unfold Rsum. simpl. ring.
  - unfold Rsum in *. simpl.
    transitivity (c * g 0%nat x + c * foldr Rplus 0 (imap (g ∘ S) l));
      [|ring].
    f_equal. rewrite <- IH. reflexivity.
Qed.

Lemma ew_num_cons x past : ew_num h (x :: past) = x + q * ew_num h past.
Proof.
  unfold ew_num. rewrite imap_cons, Rsum_cons. change (INR 0) with 0.
  rewrite halving_weight_0, <- Rsum_imap_scale.
  f_equal; [ring|]. f_equal. apply imap_ext.
  intros k y _. unfold compose. rewrite halving_weight_S. ring.
Qed.

Lemma ew_den_cons x past : ew_den h (x :: past) = 1 + q * ew_den h past.
Proof.
  unfold ew_den. rewrite imap_cons, Rsum_cons. change (INR 0) with 0.
  rewrite halving_weight_0, <- Rsum_imap_scale.
  f_equal. f_equal. apply imap_ext.
  intros k y _. unfold compose. by rewrite halving_weight_S.
Qed.

Lemma ew_den_nonneg l : 0 <= ew_den h l.
Proof.
  induction l as [|x l IH].
  - unfold ew_den, Rsum. simpl. lra.
  - rewrite ew_den_cons. pose proof q_pos. nra.
Qed.

Lemma ew_den_pos x l : 0 < ew_den h (x :: l).
Proof.
  rewrite ew_den_cons. pose proof q_pos. pose proof (ew_den_nonneg l). nra.
Qed.

Lemma ew_average_one x : ew_average h [x] = x.
Proof.
  unfold ew_average. rewrite ew_num_cons, ew_den_cons.
  unfold ew_num, ew_den, Rsum. simpl. field.
Qed.

(** One step of the loop keeps the state at the closed form. *)
Lemma ewm_step_average st x0 past x :
  weighted st = Some (ew_average h (x0 :: past)) →
  old_wt st = ew_den h (x0 :: past) →
  nobs st = length (x0 :: past) →
  let st' := ewm_step q 1 st (Some x) in
  weighted st' = Some (ew_average h (x :: x0 :: past)) ∧
  old_wt st' = ew_den h (x :: x0 :: past) ∧
  nobs st' = length (x :: x0 :: past).
Proof.
  intros Hw Ho Hn. unfold ewm_step. rewrite Hw, Ho, Hn.
  set (l := x0 :: past). cbn [weighted old_wt nobs].
  pose proof (ew_den_pos x0 past) as HD. fold l in HD.
  pose proof q_pos as Hq.
  split; [|split; [rewrite ew_den_cons; ring|done]].
  f_equal. unfold ew_average.
  rewrite (ew_num_cons x l), (ew_den_cons x l).
  destruct (Req_dec_T _ x) as [E|_].
  - unfold ew_average in E. 
    assert (ew_num h l = x * ew_den h l) as ->.
    { rewrite <- E. field. lra. }
    field. split; nra.
  - field. split; nra.
Qed.

Lemma ewm_loop_average minp rs : ∀ st x0 past t,
  weighted st = Some (ew_average h (x0 :: past)) →
  old_wt st = ew_den h (x0 :: past) →
  nobs st = length (x0 :: past) →
  (t < length rs)%nat →
  ewm_loop q 1 minp st (Some <$> rs) !! t =
    Some (let recent := rev (take (S t) rs) ++ x0 :: past in
          if length recent <? minp then NaN
          else Num (ew_average h recent)).
Proof.
  induction rs as [|x rs IH]; intros st x0 past t Hw Ho Hn Ht;
    [simpl in Ht; lia|].
  destruct (ewm_step_average st x0 past x Hw Ho Hn) as (Hw' & Ho' & Hn').
  rewrite fmap_cons. cbn [ewm_loop]. rewrite lookup_cons.
  destruct t as [|t].
  - unfold ewm_out. rewrite Hw', Hn'. reflexivity.
  - rewrite (IH _ x (x0 :: past) t Hw' Ho' Hn') by (simpl in Ht; lia).
    cbn [take rev]. by rewrite <- !app_assoc.
Qed.

Lemma ewm_mean_col_average minp rs t :
  (t < length rs)%nat →
  ewm_mean_col (com_of_halflife h) minp (Num <$> rs) !! t =
    Some (if S t <? minp then NaN
          else Num (ew_average h (rev (take (S t) rs)))).
Proof.
  intros Ht. unfold ewm_mean_col. fold q.
  destruct rs as [|x0 rs]; [simpl in Ht; lia|].
  rewrite !fmap_cons. cbn [finite]. rewrite lookup_cons.
  destruct t as [|t].
  - unfold ewm_out, ewm_init. simpl.
    by rewrite ew_average_one.
  - replace (finite <$> (Num <$> rs)) with (Some <$> rs)
      by (by rewrite <- list_fmap_compose).
    rewrite (ewm_loop_average minp rs (ewm_init (Some x0)) x0 [] t);
      [|simpl; by rewrite ew_average_one
       |simpl; unfold ew_den, Rsum; simpl;
        rewrite halving_weight_0; ring
       |done|simpl in Ht; lia].
    cbn zeta. rewrite length_app, length_rev, length_take.
    replace (S t `min` length rs + length [x0])%nat with (S (S t))
      by (simpl in Ht; change (length [x0]) with 1%nat; lia).
    reflexivity.
Qed.
End Smoother.

(** C5: on a channel of real values the smoother returns, at every
    timepoint, the exponentially weighted average of the samples up to that
    timepoint: a sample's weight is halved by every [tau_0] samples of lag,
    and the sum is divided by the total weight of the samples there are.
    Where fewer than [min_per] samples have been seen (the current one
    included) the result is undefined and replaced by 0. *)
Theorem smoother_closed_form df (tau_0 : R) (min_per : Z) c rs t :
  (0 < tau_0)%R → columns df !! c = Some (Num <$> rs) → t < length rs →
  ∃ out,
    _filter_dff df tau_0 min_per = Some out ∧
    get (columns out) c t =
      (if S t <? Nat.max (Z.to_nat min_per) 1 then Num 0
       else Num (ew_average tau_0 (rev (take (S t) rs)))) ∧
    ∀ lag : R,
      halving_weight tau_0 (lag + tau_0) = (halving_weight tau_0 lag / 2)%R.
Proof.
  intros H0 Hc Ht. eexists. split; [by apply filter_dff_Some|].
  split; [|intros lag; by apply halving_weight_halves].
  unfold get. simpl. rewrite list_lookup_fmap, Hc. simpl.
  unfold filter_col. rewrite list_lookup_fmap.
  rewrite ewm_mean_col_average by done. simpl.
  by destruct (_ <? _).
Qed.

Lemma smoother_closed_form_witness :
  (0 < 3)%R ∧
  ∃ out,
    _filter_dff (mkDataFrame 2 [[Num 1; Num 3]]) 3 1 = Some out ∧
    get (columns out) 0 1 = Num (ew_average 3 [3; 1]%R) ∧
    ∀ lag : R, halving_weight 3 (lag + 3) = (halving_weight 3 lag / 2)%R.
Proof.
  split; [lra|].
  apply (smoother_closed_form (mkDataFrame 2 [[Num 1; Num 3]]) 3 1 0
           [1; 3]%R 1); [lra|reflexivity|simpl; lia].
Defined.

(** ** The caller's array *)

Create HintDb preserving.

Lemma preserving_mret {A} (a : A) : preserving (mret a).
Proof. by intros h. Qed.

Lemma preserving_lift {A} (o : option A) : preserving (lift o).
Proof. by intros h. Qed.

Lemma preserving_mbind {A B} (m : M A) (k : A → M B) :
  preserving m → (∀ a, preserving (k a)) → preserving (mbind m k).
Proof.
  intros Hm Hk h. unfold mbind. specialize (Hm h).
  destruct (m h) as [h' [a|]]; simpl in *; [|done].
  etrans; [exact Hm|apply Hk].
Qed.

Lemma preserving_load r : preserving (load r).
Proof. by intros h. Qed.

Lemma preserving_alloc a : preserving (alloc a).
Proof.
  intros h. unfold alloc. simpl. apply insert_subseteq.
  apply not_elem_of_dom, is_fresh.
Qed.

Lemma preserving_load_frame d : preserving (load_frame d).
Proof. by intros h. Qed.

Lemma preserving_alloc_frame df : preserving (alloc_frame df).
Proof.
  intros h. unfold alloc_frame.
  pose proof (preserving_alloc (to_numpy df) h) as H.
  by destruct (alloc (to_numpy df) h).
Qed.

#[local] Hint Resolve preserving_mret preserving_lift preserving_load
  preserving_alloc preserving_load_frame preserving_alloc_frame : preserving.

Ltac preserving :=
  repeat first
    [ progress eauto with preserving
    | apply preserving_mbind; [|intros ?]
    | match goal with |- preserving (if ?b then _ else _) => destruct b end
    | match goal with |- preserving (let '(_, _) := ?p in _) => destruct p end ].

Lemma preserving_m_neg a : preserving (m_neg a).
Proof. unfold m_neg. preserving. Qed.

Lemma preserving_m_T a : preserving (m_T a).
Proof. unfold m_T. preserving. Qed.

Lemma preserving_m_calc_f0 data t1 t2 mp : preserving (m_calc_f0 data t1 t2 mp).
Proof. unfold m_calc_f0, m_T, m_DataFrame. preserving. Qed.

Lemma preserving_m_calc_dff_unfiltered f0 data lbf off :
  preserving (m_calc_dff_unfiltered f0 data lbf off).
Proof.
  unfold m_calc_dff_unfiltered, m_to_numpy, m_T, m_DataFrame, m_binop,
    m_add_scalar.
  preserving.
Qed.

Lemma preserving_m_filter_dff d t0 mp : preserving (m_filter_dff d t0 mp).
Proof. unfold m_filter_dff. preserving. Qed.

#[local] Hint Resolve preserving_m_neg preserving_m_T preserving_m_calc_f0
  preserving_m_calc_dff_unfiltered preserving_m_filter_dff : preserving.

Lemma preserving_m_dff_calc data fps tau_0 tau_1 tau_2 invert lbf :
  preserving (m_dff_calc data fps tau_0 tau_1 tau_2 invert lbf).
Proof.
  unfold m_dff_calc.
  destruct (_apply_units_and_corrections fps tau_0 tau_1 tau_2)
    as [[[t0 t1] t2] mp].
  unfold m_to_numpy. preserving.
Qed.

(** C10: whatever the call does (also when it raises), the caller's array
    holds after the call what it held before. *)
Theorem dff_calc_keeps_input (h : store) data a fps tau_0 tau_1 tau_2
    invert lbf :
  h !! base data = Some a →
  (m_dff_calc data fps tau_0 tau_1 tau_2 invert lbf h).1 !! base data = Some a.
Proof.
  intros H. eapply lookup_weaken; [exact H|].
  apply preserving_m_dff_calc.
Qed.

Lemma dff_calc_keeps_input_witness :
  let a := Arr2 1 1 [[Num 1]] in
  let h : store := {[ 0 := a ]} in
  h !! 0 = Some a ∧
  (m_dff_calc (mkRef 0 false) 30 (1 / 10) (35 / 100) 2 true false h).1 !! 0
    = Some a.
Proof.
  intros a h. split; [reflexivity|].
  apply (dff_calc_keeps_input h (mkRef 0 false) a). reflexivity.
Defined.

(** An in-place negation would not pass: the store model tells the
    difference. *)
Lemma write_not_preserving :
  ¬ preserving (write (mkRef 0 false) (Arr1 [Num 1])).
Proof.
  intros H. specialize (H {[ 0 := Arr1 [Num 2] ]}).
  unfold write in H. simpl in H.
  pose proof (lookup_weaken _ _ 0 (Arr1 [Num 2]) (lookup_singleton_eq _ _) H)
    as E.
  rewrite lookup_insert_eq in E. injection E as E. lra.
Qed.

(** ** The store version computes what the pure version computes *)

Lemma wp_mret {A} (a : A) h Q : Q (Some a) h → wp (mret a) h Q.
Proof. by split. Qed.

Lemma wp_lift {A} (o : option A) h Q : Q o h → wp (lift o) h Q.
Proof. by split. Qed.

Lemma wp_bind {A B} (m : M A) (k : A → M B) h Q :
  wp m h (λ o h', match o with
                  | Some a => wp (k a) h' Q
                  | None => Q None h'
                  end) →
  wp (mbind m k) h Q.
Proof.
  unfold wp, mbind. destruct (m h) as [h' [a|]]; simpl; [|done].
  intros (Hsub & Hsub' & HQ). split; [by etrans|done].
Qed.

Lemma wp_load r a h (Q : option ndarray → store → Prop) :
  points_to h r a → Q (Some a) h → wp (load r) h Q.
Proof.
  intros (b & Hb & _ & <-) HQ. unfold wp, load. simpl. by rewrite Hb.
Qed.

Lemma wp_load_frame d a h (Q : option DataFrame → store → Prop) :
  points_to h (block d) a → Q (Some (pd_DataFrame a)) h →
  wp (load_frame d) h Q.
Proof.
  intros (b & Hb & _ & <-) HQ. unfold wp, load_frame, load. simpl.
  by rewrite Hb.
Qed.

Lemma wp_alloc a h (Q : option aref → store → Prop) :
  wf a → (∀ r h', h ⊆ h' → points_to h' r a → Q (Some r) h') →
  wp (alloc a) h Q.
Proof.
  intros Hwf HQ. split; [apply preserving_alloc|].
  unfold alloc. simpl. apply HQ.
  - apply insert_subseteq, not_elem_of_dom, is_fresh.
  - exists a. simpl. by rewrite lookup_insert_eq.
Qed.

Lemma wf_to_numpy df : wf (to_numpy df).
Proof. apply wf_tabulate. Qed.

Lemma wp_alloc_frame df h (Q : option dref → store → Prop) :
  (∀ d h', h ⊆ h' → points_to h' (block d) (to_numpy df) → Q (Some d) h') →
  wp (alloc_frame df) h Q.
Proof.
  intros HQ.
  destruct (wp_alloc (to_numpy df) h (λ o h', Q (mkDref <$> o) h'))
    as [Hsub H]; [apply wf_to_numpy|intros r h' ??; by apply (HQ (mkDref r))|].
  unfold wp, alloc_frame.
  destruct (alloc (to_numpy df) h) as [h' o]. done.
Qed.

Lemma points_to_mono h h' r a : h ⊆ h' → points_to h r a → points_to h' r a.
Proof.
  intros Hsub (b & Hb & Hwf & Hv). exists b.
  split; [by eapply lookup_weaken|done].
Qed.

Lemma np_T_involutive a : wf a → np_T (np_T a) = a.
Proof.
  destruct a as [xs|r c m]; [done|]. intros H. simpl. f_equal.
  by apply transpose_transpose.
Qed.

Lemma points_to_T h r a :
  points_to h r a →
  points_to h (mkRef (base r) (negb (transposed r))) (np_T a).
Proof.
  intros (b & Hb & Hwf & <-). exists b. split; [done|]. split; [done|].
  unfold view. simpl. destruct (transposed r); simpl; [|done].
  by rewrite np_T_involutive.
Qed.

Lemma points_to_wf h r a : points_to h r a → wf a.
Proof.
  intros (b & _ & Hwf & <-). unfold view.
  destruct (transposed r); [|done].
  destruct b; [done|apply wf_tabulate].
Qed.

Lemma wf_frame_pd a : wf_frame (pd_DataFrame a).
Proof.
  destruct a as [xs|r c m]; unfold wf_frame; simpl.
  - by apply Forall_singleton.
  - apply wf_tabulate.
Qed.

Lemma wf_frame_apply f df :
  wf_frame df → (∀ xs, length (f xs) = length xs) → wf_frame (df_apply f df).
Proof.
  unfold wf_frame, df_apply. simpl. intros H Hf.
  apply Forall_fmap. eapply Forall_impl; [exact H|].
  intros xs Hx. simpl. by rewrite Hf.
Qed.

Lemma pd_to_numpy df : wf_frame df → pd_DataFrame (to_numpy df) = df.
Proof.
  intros H. destruct df as [n cols]. unfold to_numpy. simpl. f_equal.
  by apply transpose_transpose.
Qed.

Lemma rolling_obj df w mp r : rolling df w mp = Some r → r_obj r = df.
Proof.
  unfold rolling. destruct (w <? 0)%Z; [done|].
  destruct mp as [m|]; [|by intros [= <-]].
  destruct (_ || _); [done|]. by intros [= <-].
Qed.

Lemma wf_frame_rolling_boxcar_mean r :
  wf_frame (r_obj r) → wf_frame (rolling_boxcar_mean r).
Proof.
  intros H. apply wf_frame_apply; [done|].
  intros xs. apply length_rolling_boxcar_mean_col.
Qed.

Lemma wf_frame_rolling_min r : wf_frame (r_obj r) → wf_frame (rolling_min r).
Proof.
  intros H. apply wf_frame_apply; [done|].
  intros xs. apply length_rolling_min_col.
Qed.

Lemma wf_frame_fmap (f : val → val) df :
  wf_frame df → wf_frame (df_apply (fmap (M:=list) f) df).
Proof. intros H. apply wf_frame_apply; [done|]. intros xs. apply length_fmap. Qed.

Lemma wf_frame_ewm_mean e : wf_frame (e_obj e) → wf_frame (ewm_mean e).
Proof.
  intros H. apply wf_frame_apply; [done|].
  intros xs. apply length_ewm_mean_col.
Qed.

Lemma wf_np_map f a : wf a → wf (np_map f a).
Proof.
  destruct a as [xs|r c m]; [done|]. simpl. intros H.
  apply wf_mat_fmap; [done|]. intros xs. apply length_fmap.
Qed.

Lemma wf_np_binop op a b c : np_binop op a b = Some c → wf c.
Proof.
  unfold np_binop. destruct (as2d a) as [[r1 c1] m1], (as2d b) as [[r2 c2] m2].
  destruct (bdim r1 r2) as [r|]; [|done]. simpl.
  destruct (bdim c1 c2) as [c'|]; [|done]. simpl. intros [= <-].
  destruct a, b; try apply wf_tabulate. done.
Qed.

Lemma wf_np_ravel a : wf (np_ravel a).
Proof. by destruct a. Qed.

Lemma wf_np_atleast_2d a : wf a → wf (np_atleast_2d a).
Proof.
  destruct a as [xs|r c m]; [|done]. intros _. split; [done|].
  by apply Forall_singleton.
Qed.

Lemma wf_np_T a : wf (np_T a).
Proof. destruct a; [done|apply wf_tabulate]. Qed.

Lemma wp_mono {A} (m : M A) h (Q Q' : option A → store → Prop) :
  wp m h Q → (∀ o h', h ⊆ h' → Q o h' → Q' o h') → wp m h Q'.
Proof. intros [Hsub HQ] H. split; [done|]. by apply H. Qed.

Ltac saturate :=
  repeat match goal with
  | Hs : ?h ⊆ ?h', P : points_to ?h ?r ?a |- _ =>
      lazymatch goal with
      | _ : points_to h' r a |- _ => fail
      | _ => pose proof (points_to_mono _ _ _ _ Hs P)
      end
  end.

Ltac wf_solve :=
  eauto 6 using wf_np_map, points_to_wf, wf_np_binop, wf_np_ravel,
    wf_np_atleast_2d, wf_to_numpy, wf_np_T.

Ltac wp_step :=
  cbv beta iota; cbn [block];
  lazymatch goal with
  | |- wp (mret _) _ _ => apply wp_mret
  | |- wp (lift _) _ _ => apply wp_lift
  | |- wp (mbind _ _) _ _ => apply wp_bind
  | |- wp (load _) _ _ => eapply wp_load; [eassumption|]
  | |- wp (load_frame _) _ _ => eapply wp_load_frame; [eassumption|]
  | |- wp (alloc_frame _) _ _ =>
      apply wp_alloc_frame; intros ? ? ? ?; saturate
  | |- wp (alloc _) _ _ =>
      apply wp_alloc; [wf_solve|intros ? ? ? ?; saturate]
  end;
  cbv beta iota.

Lemma wp_m_calc_f0 h data a (t1 t2 mp : Z) :
  points_to h data a →
  wp (m_calc_f0 data t1 t2 mp) h (agrees_frame (_calc_f0 a t1 t2 mp)).
Proof.
  intros Ha. apply points_to_T in Ha.
  unfold m_calc_f0, _calc_f0, m_T, m_DataFrame.
  repeat wp_step.
  destruct (rolling (pd_DataFrame (np_T a)) t1 None) as [r1|] eqn:E1;
    simpl; [|done].
  apply rolling_obj in E1.
  assert (wf_frame (rolling_boxcar_mean r1)) as W1.
  { apply wf_frame_rolling_boxcar_mean. rewrite E1. apply wf_frame_pd. }
  repeat wp_step. rewrite (pd_to_numpy _ W1).
  destruct (rolling (rolling_boxcar_mean r1) t2 (Some mp)) as [r2|] eqn:E2;
    simpl; [|done].
  apply rolling_obj in E2.
  assert (wf_frame (rolling_min r2)) as W2.
  { apply wf_frame_rolling_min. by rewrite E2. }
  repeat wp_step. rewrite (pd_to_numpy _ W2) in *.
  split; [done|]. by apply wf_frame_fmap.
Qed.

Lemma wp_m_calc_dff_unfiltered h f0 df0 data a (lbf : bool) (off : R) :
  points_to h (block f0) (to_numpy df0) → points_to h data a →
  wp (m_calc_dff_unfiltered f0 data lbf off) h
     (agrees_frame (_calc_dff_unfiltered df0 a lbf off)).
Proof.
  intros Hf Ha. pose proof (points_to_T _ _ _ Ha) as HaT.
  unfold m_calc_dff_unfiltered, _calc_dff_unfiltered, raw_calc, m_to_numpy,
    m_T, m_DataFrame, m_binop, m_add_scalar.
  destruct lbf.
  - repeat wp_step.
    destruct (np_sub _ _) as [num|] eqn:E1; simpl; [|done].
    unfold np_sub in E1. repeat wp_step.
    destruct (np_div _ _) as [raw|] eqn:E2; simpl; [|done].
    unfold np_div in E2. repeat wp_step.
    split; [done|]. apply wf_frame_fmap, wf_frame_pd.
  - repeat wp_step.
    destruct (np_sub _ _) as [num|] eqn:E1; simpl; [|done].
    unfold np_sub in E1. repeat wp_step.
    destruct (np_div _ _) as [raw|] eqn:E2; simpl; [|done].
    unfold np_div in E2. repeat wp_step.
    split; [done|]. apply wf_frame_fmap, wf_frame_pd.
Qed.

Lemma ewm_obj df t0 mp e : ewm df t0 mp = Some e → e_obj e = df.
Proof.
  unfold ewm. destruct (get_center_of_mass t0); [|done]. by intros [= <-].
Qed.

Lemma wp_m_filter_dff h d df (t0 : R) (mp : Z) :
  points_to h (block d) (to_numpy df) → wf_frame df →
  wp (m_filter_dff d t0 mp) h (agrees_frame (_filter_dff df t0 mp)).
Proof.
  intros Hd W. unfold m_filter_dff, _filter_dff.
  repeat wp_step. rewrite (pd_to_numpy _ W).
  destruct (ewm df t0 mp) as [e|] eqn:E; simpl; [|done].
  apply ewm_obj in E.
  assert (wf_frame (ewm_mean e)) as W1.
  { apply wf_frame_ewm_mean. by rewrite E. }
  repeat wp_step. rewrite (pd_to_numpy _ W1) in *.
  split; [done|]. by apply wf_frame_fmap.
Qed.

(** The store version and the pure version agree: from a store in which
    [data] shows the array [a], the call keeps the store's buffers and either
    both versions raise, or the view the store version returns shows the
    array [dff_calc a ...] returns. *)
Lemma wp_m_dff_calc h data a fps tau_0 tau_1 tau_2 invert lbf :
  points_to h data a →
  wp (m_dff_calc data fps tau_0 tau_1 tau_2 invert lbf) h
     (agrees (dff_calc a fps tau_0 tau_1 tau_2 invert lbf)).
Proof.
  intros Ha. unfold m_dff_calc, dff_calc.
  destruct (_apply_units_and_corrections fps tau_0 tau_1 tau_2)
    as [[[t0 t1] t2] mp].
  set (a' := if invert then np_neg a else a).
  apply wp_bind.
  apply (wp_mono _ _ (λ o h', ∃ r, o = Some r ∧ points_to h' r a')).
  { unfold a', m_neg. destruct invert; repeat wp_step; eauto. }
  intros o h1 Hs1 (data' & -> & Ha').
  apply wp_bind. eapply wp_mono; [by apply wp_m_calc_f0|].
  intros [f0|] h2 Hs2 Hf0; destruct (_calc_f0 a' t1 t2 mp) as [df0|];
    simpl in *; try done.
  destruct Hf0 as [Hf0 W0]. saturate.
  apply wp_bind. eapply wp_mono; [by apply wp_m_calc_dff_unfiltered|].
  intros [unf|] h3 Hs3 Hunf;
    destruct (_calc_dff_unfiltered df0 a' lbf low_background_offset_value)
      as [dfu|]; simpl in *; try done.
  destruct Hunf as [Hunf Wu]. saturate.
  apply wp_bind. eapply wp_mono; [by apply wp_m_filter_dff|].
  intros [dff|] h4 Hs4 Hdff;
    destruct (_filter_dff dfu t0 mp) as [dfd|]; simpl in *; try done.
  destruct Hdff as [Hdff Wd]. saturate.
  unfold m_to_numpy, m_T.
  wp_step. wp_step.
  destruct (ndim a' =? 1); repeat wp_step.
  - simpl. done.
  - simpl. by apply points_to_T in Hdff.
Qed.

(** ** A trace worked through

    Two samples 1, 3 at 10 Hz with [tau_0 = 0.1], [tau_1 = tau_2 = 0.2]:
    windows of 2 samples, [min_per = 1], a half-life of one sample.  The
    warm-up is the first sample; at the second the baseline is [2 + eps] and
    the result is positive. *)

Lemma worked_units :
  _apply_units_and_corrections 10 (1 / 10) (2 / 10) (2 / 10) =
    ((10 * (1 / 10))%R, 2%Z, 2%Z, 1%Z).
Proof.
  unfold _apply_units_and_corrections.
  rewrite (py_int_eq (10 * (2 / 10)) 2) by lra.
  rewrite (py_int_eq (10 / 10) 1) by lra. done.
Qed.

Lemma worked_example :
  ∃ out x,
    dff_calc (Arr2 1 2 [[Num 1; Num 3]]) 10 (1 / 10) (2 / 10) (2 / 10)
      false false = Some (Arr2 1 2 [out]) ∧
    warmup_samples 10 (1 / 10) (2 / 10) (2 / 10) = 1 ∧
    out !! 0 = Some (Num 0) ∧ out !! 1 = Some (Num x) ∧ (0 < x)%R.
Proof.
  assert (wf_mat 1 2 [[Num 1; Num 3]]) as Hwf.
  { split; [reflexivity|]. repeat constructor. }
  assert (params_ok 10 (1 / 10) (2 / 10) (2 / 10)) as Hok.
  { unfold params_ok. rewrite worked_units. repeat split; (lra || lia). }
  pose proof float_eps_bounds as He.
  set (f := ((1 + (3 + 0)) / INR 2 + float_eps)%R).
  assert (0 < f < 3)%R as Hf by (unfold f; simpl; lra).
  set (r := ((3 + - f) / f)%R).
  assert (0 < r)%R as Hr.
  { unfold r, Rdiv. apply Rmult_lt_0_compat; [lra|].
    apply Rinv_0_lt_compat. lra. }
  assert (unfiltered_col 2 2 1 false [Num 1; Num 3] = Num <$> [0; r]%R) as Hu.
  { unfold unfiltered_col. cbn.
    change ((1 + (3 + 0)) / (1 + 1) + float_eps)%R with f.
    unfold Reqb. destruct (Req_dec_T f 0); [lra|done]. }
  assert (0 < 10 * (1 / 10))%R as Hh by lra.
  eexists _, (ew_average (10 * (1 / 10)) [r; 0]%R).
  split; [by rewrite dff_calc_2d by done|].
  split; [unfold warmup_samples; by rewrite worked_units|].
  unfold dff_row. rewrite worked_units.
  change (Z.to_nat 2) with 2. change (Z.to_nat 1) with 1.
  split; [by apply channel_dff_warmup; simpl; lia|].
  unfold channel_dff, filter_col. rewrite Hu, list_lookup_fmap.
  rewrite (ewm_mean_col_average _ Hh) by (simpl; lia). 
  split; [done|].
  unfold ew_average. rewrite !ew_num_cons, !ew_den_cons by done.
  pose proof (q_pos _ Hh) as Hq.
  set (q := (1 - 1 / (1 + com_of_halflife (10 * (1 / 10))))%R) in *.
  unfold ew_num, ew_den, Rsum. simpl.
  apply Rmult_lt_0_compat; [nra|]. apply Rinv_0_lt_compat. nra.
Qed.

(** ** The warm-up through the stages *)







(** * Further properties of the module *)

(** ** When the call raises *)

Lemma dff_calc_1d_invalid xs fps tau_0 tau_1 tau_2 invert lbf :
  ¬ params_ok fps tau_0 tau_1 tau_2 →
  dff_calc (Arr1 xs) fps tau_0 tau_1 tau_2 invert lbf = None.
Proof.
  intros Hok. unfold dff_calc, params_ok in *.
  destruct (_apply_units_and_corrections fps tau_0 tau_1 tau_2)
    as [[[t0 t1] t2] mp] eqn:E.
  assert (1 ≤ mp)%Z as Hmp.
  { unfold _apply_units_and_corrections in E. inversion E. lia. }
  set (xs' := if invert then vneg <$> xs else xs).
  replace (if invert then np_neg (Arr1 xs) else Arr1 xs)
    with (Arr1 xs') by (by destruct invert).
  destruct (decide (0 ≤ t1 ∧ mp ≤ t2)%Z) as [[H1 H2]|H12].
  - rewrite calc_f0_1d by lia. simpl.
    unfold _calc_dff_unfiltered. rewrite raw_calc_1d. simpl.
    rewrite filter_dff_None; [done|].
    destruct (Rlt_dec 0 t0); [tauto|lra].
  - rewrite calc_f0_None; [done|lia|lia].
Qed.

Lemma dff_calc_None_iff data fps tau_0 tau_1 tau_2 invert lbf :
  wf data →
  dff_calc data fps tau_0 tau_1 tau_2 invert lbf = None ↔
    ¬ params_ok fps tau_0 tau_1 tau_2.
Proof.
  intros Hwf. split.
  - intros HN Hok. destruct data as [xs|C T rows].
    + pose proof (dff_calc_1d_shape xs _ _ _ _ invert lbf Hok) as H.
      by rewrite HN in H.
    + by rewrite dff_calc_2d in HN.
  - intros Hok. destruct data as [xs|C T rows].
    + by apply dff_calc_1d_invalid.
    + by apply dff_calc_2d_invalid.
Qed.

(** X1: on any array the call raises when the half-life in samples
    [fps * tau_0] is not positive, or the boxcar window [int(fps * tau_1)] is
    negative, or the minimum window [int(fps * tau_2)] is shorter than
    [min_per = max(1, int(fps / 10))]; the data plays no part in it. *)
Theorem dff_calc_raises_when data fps tau_0 tau_1 tau_2 (invert lbf : bool) :
  wf data →
  (fps * tau_0 <= 0)%R ∨ (py_int (fps * tau_1) < 0)%Z ∨
    (py_int (fps * tau_2) < Z.max 1 (py_int (fps / 10)))%Z →
  dff_calc data fps tau_0 tau_1 tau_2 invert lbf = None.
Proof.
  intros Hwf H. apply dff_calc_None_iff; [done|].
  unfold params_ok, _apply_units_and_corrections.
  intros (H0 & H1 & H2). destruct H as [H|[H|H]]; [lra|lia|lia].
Qed.

Lemma dff_calc_raises_when_witness :
  wf (Arr2 1 1 [[Num 1]]) ∧
  ((30 * (1 / 10) <= 0)%R ∨ (py_int (30 * (35 / 100)) < 0)%Z ∨
   (py_int (30 * (5 / 100)) < Z.max 1 (py_int (30 / 10)))%Z) ∧
  dff_calc (Arr2 1 1 [[Num 1]]) 30 (1 / 10) (35 / 100) (5 / 100) false false
    = None.
Proof.
  assert (wf (Arr2 1 1 [[Num 1]])) as Hwf.
  { split; [reflexivity|]. repeat constructor. }
  assert ((30 * (1 / 10) <= 0)%R ∨ (py_int (30 * (35 / 100)) < 0)%Z ∨
          (py_int (30 * (5 / 100)) < Z.max 1 (py_int (30 / 10)))%Z) as H.
  { right; right. rewrite (py_int_eq (30 * (5 / 100)) 1) by lra.
    rewrite (py_int_eq (30 / 10) 3) by lra. lia. }
  split; [exact Hwf|]. split; [exact H|].
  apply (dff_calc_raises_when (Arr2 1 1 [[Num 1]]) 30 (1 / 10) (35 / 100)
           (5 / 100) false false Hwf H).
Defined.

(** A minimum window of 0.05 s at 30 Hz is one sample, fewer than
    [min_per = 3]: the call raises. *)
Lemma short_tau_2_raises data invert lbf :
  wf data →
  dff_calc data 30 (1 / 10) (35 / 100) (5 / 100) invert lbf = None.
Proof.
  intros Hwf. apply dff_calc_None_iff; [done|].
  unfold params_ok, _apply_units_and_corrections.
  rewrite (py_int_eq (30 * (5 / 100)) 1) by lra.
  rewrite (py_int_eq (30 / 10) 3) by lra. lia.
Qed.

Lemma dff_calc_2d_shape_witness :
  wf_mat 2 1 [[Num 1]; [Num 2]] ∧ params_ok 30 (1 / 10) (35 / 100) 2 ∧
  ∃ out,
    dff_calc (Arr2 2 1 [[Num 1]; [Num 2]]) 30 (1 / 10) (35 / 100) 2 false false
      = Some (Arr2 2 1 out) ∧ wf_mat 2 1 out.
Proof.
  assert (wf_mat 2 1 [[Num 1]; [Num 2]]) as Hwf.
  { split; [reflexivity|]. repeat constructor. }
  split; [exact Hwf|]. split; [exact default_params_ok|].
  apply (dff_calc_2d_shape 2 1 [[Num 1]; [Num 2]] 30 (1 / 10) (35 / 100) 2
           false false Hwf default_params_ok).
Defined.

(** ** A trace passed 1-D and the same trace as a one-row matrix *)

(** X3: for a trace of T samples the call returns shape (1, T*T) when the
    trace is passed as a 1-D array and shape (1, T) when it is passed as a
    1 x T matrix. *)
Theorem dff_calc_1d_versus_row xs fps tau_0 tau_1 tau_2 invert lbf :
  params_ok fps tau_0 tau_1 tau_2 →
  shape <$> dff_calc (Arr1 xs) fps tau_0 tau_1 tau_2 invert lbf
    = Some [1; length xs * length xs] ∧
  shape <$> dff_calc (Arr2 1 (length xs) [xs]) fps tau_0 tau_1 tau_2 invert lbf
    = Some [1; length xs].
Proof.
  intros Hok. split; [by apply dff_calc_1d_shape|].
  rewrite dff_calc_2d; [done| |done].
  split; [done|]. by apply Forall_singleton.
Qed.

Lemma dff_calc_1d_versus_row_witness :
  params_ok 30 (1 / 10) (35 / 100) 2 ∧
  shape <$> dff_calc (Arr1 [Num 1; Num 2; Num 3]) 30 (1 / 10) (35 / 100) 2
              false false = Some [1; 9] ∧
  shape <$> dff_calc (Arr2 1 3 [[Num 1; Num 2; Num 3]]) 30 (1 / 10) (35 / 100)
              2 false false = Some [1; 3].
Proof.
  split; [exact default_params_ok|].
  apply (dff_calc_1d_versus_row [Num 1; Num 2; Num 3] 30 (1 / 10) (35 / 100) 2
           false false default_params_ok).
Defined.

(** ** Channels stacked *)

(** X4: processing two sets of channels stacked into one matrix gives the
    two results stacked (and raises when they do). *)
Theorem dff_calc_vstack C1 C2 T rows1 rows2 fps tau_0 tau_1 tau_2 invert lbf :
  wf_mat C1 T rows1 → wf_mat C2 T rows2 →
  dff_calc (Arr2 (C1 + C2) T (rows1 ++ rows2)) fps tau_0 tau_1 tau_2 invert lbf
    = (o1 ← dff_calc (Arr2 C1 T rows1) fps tau_0 tau_1 tau_2 invert lbf;
       o2 ← dff_calc (Arr2 C2 T rows2) fps tau_0 tau_1 tau_2 invert lbf;
       Some (np_vstack o1 o2)).
Proof.
  intros H1 H2.
  assert (wf_mat (C1 + C2) T (rows1 ++ rows2)) as H12.
  { destruct H1 as [L1 F1], H2 as [L2 F2]. split.
    - rewrite length_app. lia.
    - by apply Forall_app. }
  destruct (params_ok_dec fps tau_0 tau_1 tau_2) as [Hok|Hok].
  - rewrite !dff_calc_2d by done. simpl. do 2 f_equal.
    destruct invert; by rewrite !fmap_app.
  - by rewrite !dff_calc_2d_invalid.
Qed.

Lemma dff_calc_vstack_witness :
  wf_mat 1 1 [[Num 1]] ∧ wf_mat 1 1 [[Num 2]] ∧
  dff_calc (Arr2 (1 + 1) 1 ([[Num 1]] ++ [[Num 2]])) 30 (1 / 10) (35 / 100) 2
      false false
    = (o1 ← dff_calc (Arr2 1 1 [[Num 1]]) 30 (1 / 10) (35 / 100) 2 false false;
       o2 ← dff_calc (Arr2 1 1 [[Num 2]]) 30 (1 / 10) (35 / 100) 2 false false;
       Some (np_vstack o1 o2)).
Proof.
  assert (∀ v, wf_mat 1 1 [[v]]) as Hwf.
  { intros v. split; [reflexivity|]. repeat constructor. }
  split; [apply Hwf|]. split; [apply Hwf|].
  apply (dff_calc_vstack 1 1 1 [[Num 1]] [[Num 2]]); apply Hwf.
Defined.

(** ** No look-ahead *)

Lemma take_windowed (F : list val → val) n k xs :
  take k ((λ t, F (window n t xs)) <$> seq 0 (length xs)) =
    (λ t, F (window n t (take k xs))) <$> seq 0 (length (take k xs)).
Proof.
  rewrite <- fmap_take, take_seq, length_take.
  apply list_fmap_ext. intros i t Ht.
  apply lookup_seq in Ht as [Ht Hi]. simpl in Ht. subst i.
  unfold window. rewrite take_take. do 3 f_equal. lia.
Qed.

Lemma take_rolling_boxcar_mean_col n minp k xs :
  take k (rolling_boxcar_mean_col n minp xs) =
    rolling_boxcar_mean_col n minp (take k xs).
Proof. apply (take_windowed (boxcar_mean_at minp)). Qed.

Lemma take_rolling_min_col n minp k xs :
  take k (rolling_min_col n minp xs) = rolling_min_col n minp (take k xs).
Proof. apply (take_windowed (min_at minp)). Qed.

Lemma take_f0_col n1 n2 minp k xs :
  take k (f0_col n1 n2 minp xs) = f0_col n1 n2 minp (take k xs).
Proof.
  unfold f0_col.
  by rewrite <- fmap_take, take_rolling_min_col, take_rolling_boxcar_mean_col.
Qed.

Lemma take_unfiltered_col n1 n2 minp lbf k xs :
  take k (unfiltered_col n1 n2 minp lbf xs) =
    unfiltered_col n1 n2 minp lbf (take k xs).
Proof.
  unfold unfiltered_col.
  by rewrite <- fmap_take, zip_with_take, take_f0_col.
Qed.

Lemma take_ewm_loop q w minp k vals : ∀ st,
  take k (ewm_loop q w minp st vals) = ewm_loop q w minp st (take k vals).
Proof.
  revert k. induction vals as [|v vals IH]; intros k st.
  - rewrite take_nil. simpl. by rewrite take_nil.
  - destruct k as [|k]; [done|]. simpl. by rewrite IH.
Qed.

Lemma take_ewm_mean_col com minp k xs :
  take k (ewm_mean_col com minp xs) = ewm_mean_col com minp (take k xs).
Proof.
  unfold ewm_mean_col. rewrite fmap_take.
  destruct (finite <$> xs) as [|v0 rest]; [rewrite take_nil; simpl; by rewrite take_nil|].
  destruct k as [|k]; [done|]. simpl. by rewrite take_ewm_loop.
Qed.

(** The smoothed trace of a shorter recording is the start of the smoothed
    trace of the longer one. *)
Lemma take_channel_dff n1 n2 minp com lbf k xs :
  take k (channel_dff n1 n2 minp com lbf xs) =
    channel_dff n1 n2 minp com lbf (take k xs).
Proof.
  unfold channel_dff, filter_col.
  by rewrite <- fmap_take, take_ewm_mean_col, take_unfiltered_col.
Qed.

Lemma wf_mat_take C T k rows :
  wf_mat C T rows → wf_mat C (Nat.min k T) (take k <$> rows).
Proof.
  intros [HC HT]. split; [by rewrite length_fmap|].
  apply Forall_fmap. eapply Forall_impl; [exact HT|].
  intros xs Hx. simpl in *. by rewrite length_take, Hx.
Qed.

(** X5: the result up to a timepoint depends on the recording up to that
    timepoint only: cutting the recording to its first [k] timepoints and
    processing it gives the first [k] timepoints of the result on the whole
    recording (and raises when that does). *)
Theorem dff_calc_first_cols C T rows k fps tau_0 tau_1 tau_2 invert lbf :
  wf_mat C T rows →
  dff_calc (np_first_cols k (Arr2 C T rows)) fps tau_0 tau_1 tau_2 invert lbf
    = np_first_cols k <$>
        dff_calc (Arr2 C T rows) fps tau_0 tau_1 tau_2 invert lbf.
Proof.
  intros Hwf. pose proof (wf_mat_take C T k rows Hwf) as Hwf'. simpl.
  destruct (params_ok_dec fps tau_0 tau_1 tau_2) as [Hok|Hok].
  - rewrite !dff_calc_2d by done. simpl. do 2 f_equal.
    rewrite <- !list_fmap_compose.
    destruct invert; rewrite <- ?list_fmap_compose; apply list_fmap_ext;
      intros i xs _; simpl; unfold dff_row;
      destruct (_apply_units_and_corrections _ _ _ _) as [[[??]?]?];
      by rewrite take_channel_dff, ?fmap_take.
  - by rewrite !dff_calc_2d_invalid.
Qed.

Lemma dff_calc_first_cols_witness :
  wf_mat 1 2 [[Num 1; Num 3]] ∧
  dff_calc (np_first_cols 1 (Arr2 1 2 [[Num 1; Num 3]])) 10 (1 / 10) (2 / 10)
      (2 / 10) false false
    = np_first_cols 1 <$>
        dff_calc (Arr2 1 2 [[Num 1; Num 3]]) 10 (1 / 10) (2 / 10) (2 / 10)
          false false.
Proof.
  assert (wf_mat 1 2 [[Num 1; Num 3]]) as Hwf.
  { split; [reflexivity|]. repeat constructor. }
  split; [exact Hwf|].
  apply (dff_calc_first_cols 1 2 [[Num 1; Num 3]] 1 10 (1 / 10) (2 / 10)
           (2 / 10) false false Hwf).
Defined.

(** ** The smoother keeps the sign of its input *)












(** ** What the result can hold *)

Lemma fill0_not_nan v : fill0 v ≠ NaN.
Proof. by destruct v. Qed.

Lemma filter_col_not_nan com minp xs v : v ∈ filter_col com minp xs → v ≠ NaN.
Proof.
  unfold filter_col. intros Hv.
  apply list_elem_of_fmap in Hv as (u & -> & _). apply fill0_not_nan.
Qed.

(** The entries of the result, by the channel of the input they come from
    (for a 1-D input: from the whole input). *)
Lemma dff_calc_entries data fps tau_0 tau_1 tau_2 (invert lbf : bool) out ys v :
  wf data → dff_calc data fps tau_0 tau_1 tau_2 invert lbf = Some out →
  ys ∈ channels out → v ∈ ys →
  let '(t0, t1, t2, mp) := _apply_units_and_corrections fps tau_0 tau_1 tau_2 in
  (0 < t0)%R ∧
  ∃ zs, v ∈ filter_col (com_of_halflife t0) (Z.to_nat mp) zs ∧
    match data with
    | Arr1 _ => True
    | Arr2 _ _ rows =>
        ∃ xs, xs ∈ (if invert then fmap (M:=list) (fmap (M:=list) vneg) rows
                    else rows) ∧
          zs = unfiltered_col (Z.to_nat t1) (Z.to_nat t2) (Z.to_nat mp) lbf xs
    end.
Proof.
  intros Hwf Hout Hys Hv.
  assert (params_ok fps tau_0 tau_1 tau_2) as Hok.
  { destruct (params_ok_dec fps tau_0 tau_1 tau_2) as [|Hn]; [done|].
    apply (dff_calc_None_iff data _ _ _ _ invert lbf Hwf) in Hn. congruence. }
  destruct data as [xs|C T rows].
  - pose proof (dff_calc_1d xs fps tau_0 tau_1 tau_2 invert lbf Hok) as H.
    unfold params_ok in Hok.
    destruct (_apply_units_and_corrections fps tau_0 tau_1 tau_2)
      as [[[t0 t1] t2] mp].
    split; [tauto|]. simpl in H. rewrite H in Hout. simplify_eq/=.
    apply list_elem_of_singleton in Hys. subst ys.
    apply list_elem_of_lookup in Hv as [p Hp].
    apply lookup_concat_tabulate in Hp as (i & j & Hi & Hj & _ & ->).
    eexists. split; [|done].
    match goal with |- default NaN (?l !! i) ∈ _ =>
      destruct (lookup_lt_is_Some_2 l i) as [u Hu] end.
    { by rewrite length_filter_col, length_fmap, length_fmap, length_seq. }
    rewrite Hu. simpl. by eapply list_elem_of_lookup_2.
  - rewrite dff_calc_2d in Hout by done. injection Hout as <-.
    simpl in Hys. unfold dff_row, params_ok in *.
    destruct (_apply_units_and_corrections fps tau_0 tau_1 tau_2)
      as [[[t0 t1] t2] mp].
    split; [tauto|].
    apply list_elem_of_fmap in Hys as (xs & -> & Hxs).
    eexists. split; [exact Hv|]. by exists xs.
Qed.

(** X7: whatever the input holds (NaN and infinities included), a result
    the call returns holds no NaN. *)
Theorem dff_calc_no_nan data fps tau_0 tau_1 tau_2 invert lbf out ys v :
  wf data → dff_calc data fps tau_0 tau_1 tau_2 invert lbf = Some out →
  ys ∈ channels out → v ∈ ys → v ≠ NaN.
Proof.
  intros Hwf Hout Hys Hv.
  pose proof (dff_calc_entries data fps tau_0 tau_1 tau_2 invert lbf out ys v
                Hwf Hout Hys Hv) as H.
  destruct (_apply_units_and_corrections fps tau_0 tau_1 tau_2)
    as [[[t0 t1] t2] mp].
  destruct H as (_ & zs & Hin & _). by eapply filter_col_not_nan.
Qed.

(** One sample with the default parameters is inside the warm-up. *)
Lemma default_one_sample v lbf :
  dff_calc (Arr2 1 1 [[v]]) 30 (1 / 10) (35 / 100) 2 false lbf =
    Some (Arr2 1 1 [[Num 0]]).
Proof.
  rewrite dff_calc_2d; [|split; [done|by apply Forall_singleton]
                        |exact default_params_ok].
  simpl. do 3 f_equal. unfold dff_row. rewrite default_units.
  pose proof (length_channel_dff (Z.to_nat 10) (Z.to_nat 60) (Z.to_nat 3)
                (com_of_halflife (30 * (1 / 10))) lbf [v]) as Hl.
  pose proof (channel_dff_warmup (Z.to_nat 10) (Z.to_nat 60) (Z.to_nat 3)
                (com_of_halflife (30 * (1 / 10))) lbf [v] 0) as H0.
  destruct (channel_dff _ _ _ _ _ _) as [|y [|??]]; simplify_eq/=.
  f_equal. assert (Some y = Some (Num 0)) as [= ->]; [|done].
  apply H0; lia.
Qed.

Lemma dff_calc_no_nan_witness :
  wf (Arr2 1 1 [[NaN]]) ∧
  dff_calc (Arr2 1 1 [[NaN]]) 30 (1 / 10) (35 / 100) 2 false false
    = Some (Arr2 1 1 [[Num 0]]) ∧
  [Num 0] ∈ channels (Arr2 1 1 [[Num 0]]) ∧ Num 0 ∈ [Num 0] ∧ Num 0 ≠ NaN.
Proof.
  assert (wf (Arr2 1 1 [[NaN]])) as Hwf.
  { split; [reflexivity|]. repeat constructor. }
  assert ([Num 0] ∈ channels (Arr2 1 1 [[Num 0]])) as Hys by (simpl; left).
  assert (Num 0 ∈ [Num 0]) as Hv by left.
  split; [exact Hwf|]. split; [apply default_one_sample|].
  split; [exact Hys|]. split; [exact Hv|].
  apply (dff_calc_no_nan (Arr2 1 1 [[NaN]]) 30 (1 / 10) (35 / 100) 2 false
           false (Arr2 1 1 [[Num 0]]) [Num 0] (Num 0) Hwf
           (default_one_sample NaN false) Hys Hv).
Defined.

(** ** Bounds for a non-negative trace *)









(** ** A constant column through the smoother *)

Lemma ewm_loop_const q minp (v : R) m : ∀ st,
  weighted st = Some v →
  ewm_loop q 1 minp st (replicate m (Some v)) =
    (λ i, if S (nobs st + i) <? minp then NaN else Num v) <$> seq 0 m.
Proof.
  induction m as [|m IH]; intros st Hst; [done|].
  cbn [replicate ewm_loop]. 
  assert (weighted (ewm_step q 1 st (Some v)) = Some v) as Hw.
  { unfold ewm_step. rewrite Hst. simpl. by destruct (Req_dec_T v v). }
  assert (nobs (ewm_step q 1 st (Some v)) = S (nobs st)) as Hn.
  { unfold ewm_step. rewrite Hst. done. }
  rewrite (IH _ Hw), Hn. cbn [seq fmap list_fmap]. f_equal.
  - unfold ewm_out. rewrite Hw, Hn. by rewrite Nat.add_0_r.
  - rewrite <- fmap_S_seq, <- list_fmap_compose. apply list_fmap_ext.
    intros _ i _. simpl. by rewrite Nat.add_succ_r.
Qed.

Lemma filter_col_const com minp (v : R) n :
  filter_col com minp (replicate n (Num v)) =
    (λ t, if S t <? Nat.max minp 1 then Num 0 else Num v) <$> seq 0 n.
Proof.
  unfold filter_col, ewm_mean_col. rewrite fmap_replicate.
  destruct n as [|n]; [done|]. cbn [replicate finite].
  rewrite ewm_loop_const by done. cbn [seq fmap list_fmap]. f_equal.
  - unfold ewm_out. simpl. by destruct (_ <? _).
  - rewrite <- fmap_S_seq, <- !list_fmap_compose. apply list_fmap_ext.
    intros _ i _. simpl. by destruct (_ <? _).
Qed.

(** X10: a column that is constant at [v] passes the smoother unchanged:
    the average is only updated when the new sample differs from it, so the
    smoothed column is exactly [v] from the timepoint with [min_per]
    samples on, and 0 before. *)
Theorem filter_dff_constant_column df (tau_0 : R) (min_per : Z) c n (v : R) :
  (0 < tau_0)%R → columns df !! c = Some (replicate n (Num v)) →
  ∃ out,
    _filter_dff df tau_0 min_per = Some out ∧
    columns out !! c =
      Some ((λ t, if S t <? Nat.max (Z.to_nat min_per) 1 then Num 0 else Num v)
              <$> seq 0 n).
Proof.
  intros Hh Hc. eexists. split; [by apply filter_dff_Some|]. simpl.
  rewrite list_lookup_fmap, Hc. simpl. by rewrite filter_col_const.
Qed.

Lemma filter_dff_constant_column_witness :
  (0 < 3)%R ∧
  ∃ out,
    _filter_dff (mkDataFrame 3 [replicate 3 (Num 7)]) 3 2 = Some out ∧
    columns out !! 0 =
      Some ((λ t, if S t <? Nat.max (Z.to_nat 2) 1 then Num 0 else Num 7)
              <$> seq 0 3).
Proof.
  split; [lra|].
  apply (filter_dff_constant_column (mkDataFrame 3 [replicate 3 (Num 7)]) 3 2
           0 3 7); [lra|reflexivity].
Defined.

(** ** From when on there is a baseline *)





Section Baseline.
Variables (n1 n2 minp : nat) (rs : list R).
Hypothesis n1_pos : 1 ≤ n1.
Hypothesis minp_pos : 1 ≤ minp.
Hypothesis minp_le : minp ≤ n2.




End Baseline.



(** ** A boxcar window of no sample *)






